(** * pyems.calc: microstrip and coaxial line formulas

    A shallow embedding of [src/pyems/calc.py] and the properties of
    its four functions: [wheeler_z0], [wheeler_z0_width], [miter] and
    [coax_core_diameter].

    Arithmetic model.  A Python [float] and a numpy [float64] are both
    IEEE 754 doubles.  Here a double is a real number or [nan] (type
    [f64]).  The parameters [t], [er], [h], [z0], [tol], the
    permittivity and the impedance are Python floats that are numbers,
    so they are reals; a width or a diameter is a Python float or a
    float64 ([pynum]), as [wheeler_z0_width] returns one.

    Rounding is not represented.  A result stands for the double next
    to it, a result beyond the largest double for the infinity the code
    has in its place, and a result too small for a double for zero.
    The properties are stated with that in mind: a bound that a rounded
    result can attain is not strict, and what is said of the values of
    [wheeler_z0] is said for arguments far from the ends of the range
    of doubles ([in_range]).

    What the embedding keeps exactly is the way the two kinds of number
    fail:

    - Python floats: a division by zero raises [ZeroDivisionError], and
      [x ** 2] raises [OverflowError] when the square is beyond the
      largest double;
    - numpy float64: nothing is raised.  The square root or the
      logarithm of a negative number and [0 / 0] are [nan]; [nan] goes
      through every later operation and makes every comparison false,
      and the embedding follows it, through the loops of the solver too;
    - numpy yields an infinity when a non-zero number is divided by
      zero, with the sign of the zero, which a real number does not
      have, and for the logarithm of zero.  The embedding has no
      infinities: it stops such a run with the outcome [Infinite],
      which is neither a returned value nor an exception, and no
      property below says that a run ends this way.

    The loops of [wheeler_z0_width] have no iteration bound in the
    source; the embedding counts executions of a loop body against a
    [fuel] and ends with [OutOfFuel] when it is exhausted. *)

From Stdlib Require Import Reals Lra Lia Psatz String.

#[local] Open Scope R_scope.

(** ** Outcomes of a run *)

Inductive exn : Type :=
| ZeroDivisionError
| OverflowError
| ValueError (msg : string).

Inductive outcome (A : Type) : Type :=
| Ok (a : A)
| Raise (e : exn)
| Infinite
| OutOfFuel.

Arguments Ok {A} a.
Arguments Raise {A} e.
Arguments Infinite {A}.
Arguments OutOfFuel {A}.

Definition bind {A B : Type} (c : outcome A) (k : A -> outcome B) : outcome B :=
  match c with
  | Ok a => k a
  | Raise e => Raise e
  | Infinite => Infinite
  | OutOfFuel => OutOfFuel
  end.

Notation "x <- c ;; k" := (bind c (fun x => k))
  (at level 61, c at next level, right associativity).

Definition fmap {A B : Type} (f : A -> B) (c : outcome A) : outcome B :=
  match c with
  | Ok a => Ok (f a)
  | Raise e => Raise e
  | Infinite => Infinite
  | OutOfFuel => OutOfFuel
  end.

Definition raises {A : Type} (c : outcome A) : Prop :=
  exists e, c = Raise e.

(** ** Doubles *)

Inductive f64 : Type :=
| Fin (x : R)
| NaN.

(** An operation of numpy on one or two doubles: [nan] in, [nan] out. *)
Definition lift1 (f : R -> R) (a : f64) : f64 :=
  match a with Fin x => Fin (f x) | NaN => NaN end.

Definition lift2 (f : R -> R -> R) (a b : f64) : f64 :=
  match a, b with Fin x, Fin y => Fin (f x y) | _, _ => NaN end.

Definition fadd : f64 -> f64 -> f64 := lift2 Rplus.
Definition fsub : f64 -> f64 -> f64 := lift2 Rminus.
Definition fmul : f64 -> f64 -> f64 := lift2 Rmult.
Definition fabs : f64 -> f64 := lift1 Rabs.
Definition fsquare : f64 -> f64 := lift1 (fun x => x ^ 2).

(** [a < y] and [a > y]: false when [a] is [nan]. *)
Definition flt (a : f64) (y : R) : bool :=
  match a with
  | Fin x => if Rlt_dec x y then true else false
  | NaN => false
  end.

Definition fgt (a : f64) (y : R) : bool :=
  match a with
  | Fin x => if Rgt_dec x y then true else false
  | NaN => false
  end.

(** numpy's division: at least one operand is a float64. *)
Definition np_div (a b : f64) : outcome f64 :=
  match a, b with
  | Fin x, Fin y =>
      if Req_dec_T y 0 then (if Req_dec_T x 0 then Ok NaN else Infinite)
      else Ok (Fin (x / y))
  | _, _ => Ok NaN
  end.

(** [np.sqrt]: [nan] below zero. *)
Definition np_sqrt (a : f64) : f64 :=
  match a with
  | Fin x => if Rlt_dec x 0 then NaN else Fin (sqrt x)
  | NaN => NaN
  end.

(** [np.log]: [nan] below zero, [-inf] at zero. *)
Definition np_log (a : f64) : outcome f64 :=
  match a with
  | Fin x =>
      if Rlt_dec x 0 then Ok NaN
      else if Req_dec_T x 0 then Infinite
      else Ok (Fin (ln x))
  | NaN => Ok NaN
  end.

Definition np_exp : f64 -> f64 := lift1 exp.

(** [np.power(10, a)]. *)
Definition np_power10 : f64 -> f64 := lift1 (Rpower 10).

(** ** Python floats and numpy float64s *)

(** The dynamic type of a number: the caller passes a Python float, the
    functions return numpy float64s. *)
Inductive pynum : Type :=
| PyFloat (x : R)
| NpFloat64 (a : f64).

Definition value (v : pynum) : f64 :=
  match v with PyFloat x => Fin x | NpFloat64 a => a end.

(** An operation between [v] and a Python constant keeps the type of [v]. *)
Definition pymap (f : R -> R) (v : pynum) : pynum :=
  match v with
  | PyFloat x => PyFloat (f x)
  | NpFloat64 a => NpFloat64 (lift1 f a)
  end.

(** [float.__truediv__]: both operands are Python numbers. *)
Definition py_div (x y : R) : outcome R :=
  if Req_dec_T y 0 then Raise ZeroDivisionError else Ok (x / y).

(** The largest double, [(2 - 2^-52) * 2^1023]. *)
Definition DBL_MAX : R := (2 - / 2 ^ 52) * 2 ^ 1023.

(** [x ** 2] on a Python float: [OverflowError] when the square of a
    finite [x] is beyond the largest double.  An [x] beyond it is an
    infinity in the code, whose square is an infinity and raises
    nothing. *)
Definition py_square (x : R) : outcome R :=
  if Rlt_dec DBL_MAX (Rabs x) then Infinite
  else if Rlt_dec DBL_MAX (x ^ 2) then Raise OverflowError
  else Ok (x ^ 2).

(** [a / b]: Python's division between two Python floats, numpy's as
    soon as one operand is a float64. *)
Definition truediv (a b : pynum) : outcome f64 :=
  match a, b with
  | PyFloat x, PyFloat y => fmap Fin (py_div x y)
  | _, _ => np_div (value a) (value b)
  end.

(** ** [wheeler_z0] (calc.py, lines 4-51) *)

(** Line 27, [((1 / np.pi) * (1 / ((w / t) + (11 / 10)))) ** 2]: Python
    arithmetic for a Python width, numpy's for a float64 width. *)
Definition width_term (w : pynum) (t : R) : outcome f64 :=
  match w with
  | PyFloat x =>
      w_t <- py_div x t ;;
      r <- py_div 1 (w_t + 11 / 10) ;;
      p2 <- py_square ((1 / PI) * r) ;;
      Ok (Fin p2)
  | NpFloat64 a =>
      w_t <- np_div a (Fin t) ;;
      r <- np_div (Fin 1) (fadd w_t (Fin (11 / 10))) ;;
      Ok (fsquare (fmul (Fin (1 / PI)) r))
  end.

(** Lines 20-31, the effective width [weff]. *)
Definition wheeler_weff (w : pynum) (t er h : R) : outcome f64 :=
  inv_er <- py_div 1 er ;;
  t_h <- py_div t h ;;
  t_h2 <- py_square t_h ;;
  p2 <- width_term w t ;;
  q <- np_div (Fin (4 * exp 1)) (np_sqrt (fadd (Fin t_h2) p2)) ;;
  l <- np_log q ;;
  Ok (fadd (value w) (fmul (Fin (t * ((1 + inv_er) / (2 * PI)))) l)).

Definition wheeler_z0 (w : pynum) (t er h : R) : outcome f64 :=
  let z0 := 376.730313668 in
  weff <- wheeler_weff w t er h ;;
  tmp1 <- np_div (Fin (4 * h)) weff ;;
  e8 <- py_div 8 er ;;
  let tmp2 := (14 + e8) / 11 in
  k <- np_div (Fin z0) (fmul (Fin (2 * PI)) (np_sqrt (Fin (2 * (1 + er))))) ;;
  inv_er <- py_div 1 er ;;
  let a := fmul (Fin tmp2) tmp1 in
  let s := np_sqrt (fadd (fsquare a) (Fin ((PI ^ 2) * ((1 + inv_er) / 2)))) in
  l <- np_log (fadd (Fin 1) (fmul tmp1 (fadd a s))) ;;
  Ok (fmul k l).

(** ** [wheeler_z0_width] (calc.py, lines 54-105) *)

(** The local variables of the solver. *)
Record solver_state : Type := mkState {
  width : pynum;
  zm : f64;
  wlow : pynum;
  zlow : f64;
  whigh : pynum;
  zhigh : f64
}.

Definition default_tol : R := 0.01.
Definition default_guess : R := 0.3.

Section Solver.

Variables z0 t er h tol : R.

(** Lines 81-83: [while zlow < z0]. *)
Fixpoint bracket_low (fuel : nat) (wl : pynum) (zl : f64) : outcome (pynum * f64) :=
  if flt zl z0 then
    match fuel with
    | O => OutOfFuel
    | S fuel' =>
        let wl' := pymap (fun x => x / 10) wl in
        zl' <- wheeler_z0 wl' t er h ;;
        bracket_low fuel' wl' zl'
    end
  else Ok (wl, zl).

(** Lines 87-89: [while zhigh > z0]. *)
Fixpoint bracket_high (fuel : nat) (wh : pynum) (zh : f64) : outcome (pynum * f64) :=
  if fgt zh z0 then
    match fuel with
    | O => OutOfFuel
    | S fuel' =>
        let wh' := pymap (fun x => x * 10) wh in
        zh' <- wheeler_z0 wh' t er h ;;
        bracket_high fuel' wh' zh'
    end
  else Ok (wh, zh).

(** Lines 76-89: the state on entry to the interpolation loop. *)
Definition bracketing (guess : pynum) (fuel : nat) : outcome solver_state :=
  let wd := guess in
  z <- wheeler_z0 wd t er h ;;
  let wl := pymap (fun x => x / 10) wd in
  zl <- wheeler_z0 wl t er h ;;
  low <- bracket_low fuel wl zl ;;
  let wh := pymap (fun x => x * 10) wd in
  zh <- wheeler_z0 wh t er h ;;
  high <- bracket_high fuel wh zh ;;
  Ok (mkState wd z (fst low) (snd low) (fst high) (snd high)).

(** Line 91: the guard [np.absolute(zm - z0) > tol]. *)
Definition off_target (s : solver_state) : bool :=
  fgt (fabs (fsub (zm s) (Fin z0))) tol.

(** Lines 92-103: one execution of the loop body. *)
Definition interpolate_step (s : solver_state) : outcome solver_state :=
  if fgt (zm s) z0 then
    m <- np_div (fsub (zhigh s) (zm s))
                (fsub (value (whigh s)) (value (width s))) ;;
    d <- np_div (fsub (Fin z0) (zm s)) m ;;
    let wd := NpFloat64 (fadd (value (width s)) d) in
    z <- wheeler_z0 wd t er h ;;
    Ok (mkState wd z (width s) (zm s) (whigh s) (zhigh s))
  else
    m <- np_div (fsub (zm s) (zlow s))
                (fsub (value (width s)) (value (wlow s))) ;;
    d <- np_div (fsub (Fin z0) (zm s)) m ;;
    let wd := NpFloat64 (fadd (value (width s)) d) in
    z <- wheeler_z0 wd t er h ;;
    Ok (mkState wd z (wlow s) (zlow s) (width s) (zm s)).

(** Lines 91-103: [while np.absolute(zm - z0) > tol]. *)
Fixpoint interpolate (fuel : nat) (s : solver_state) : outcome solver_state :=
  if off_target s then
    match fuel with
    | O => OutOfFuel
    | S fuel' => s' <- interpolate_step s ;; interpolate fuel' s'
    end
  else Ok s.

Definition wheeler_z0_width (guess : pynum) (fuel : nat) : outcome pynum :=
  s <- bracketing guess fuel ;;
  s' <- interpolate fuel s ;;
  Ok (width s').

End Solver.

(** ** [miter] (calc.py, lines 108-117) *)

(** The error of line 114, the spec's INVALID_RATIO. *)
Definition invalid_ratio : exn :=
  ValueError "Ratio of trace width to height must be at least 0.25.".

Definition miter (trace_width substrate_height : pynum) : outcome f64 :=
  ratio <- truediv trace_width substrate_height ;;
  if flt ratio 0.25 then
    Raise invalid_ratio
  else
    x <- truediv (pymap (Rmult (- (27 / 20))) trace_width) substrate_height ;;
    Ok (fadd (Fin 0.52) (fmul (Fin 0.65) (np_exp x))).

(** ** [coax_core_diameter] (calc.py, lines 120-132) *)

Definition default_impedance : R := 50.

Definition coax_core_diameter
    (outer_diameter : pynum) (permittivity impedance : R) : outcome f64 :=
  let s := np_sqrt (Fin permittivity) in
  let e := lift1 (fun x => x / 138) (fmul (Fin impedance) s) in
  np_div (value outer_diameter) (np_power10 e).

(** ** Closed forms

    The values [wheeler_weff] and [wheeler_z0] compute on a run in
    which every operation returns a number (lemmas [wheeler_weff_value]
    and [wheeler_z0_of_weff] below). *)

Definition weff_formula (w t er h : R) : R :=
  w + (t * ((1 + 1 / er) / (2 * PI))) *
      ln (4 * exp 1 /
          sqrt ((t / h) ^ 2 + ((1 / PI) * (1 / (w / t + 11 / 10))) ^ 2)).

(** The argument of the logarithm of line 34, for an effective width. *)
Definition log_argument (weff er h : R) : R :=
  let tmp1 := 4 * h / weff in
  let tmp2 := (14 + 8 / er) / 11 in
  1 + tmp1 * (tmp2 * tmp1 +
              sqrt ((tmp2 * tmp1) ^ 2 + PI ^ 2 * ((1 + 1 / er) / 2))).

Definition impedance_of_weff (weff er h : R) : R :=
  376.730313668 / (2 * PI * sqrt (2 * (1 + er))) * ln (log_argument weff er h).

Definition z0_formula (w t er h : R) : R :=
  impedance_of_weff (weff_formula w t er h) er h.

(** The numbers far from both ends of the range of doubles: a product
    or a quotient of a few numbers between [2^-160] and [2^160] neither
    overflows nor underflows. *)
Definition in_range (x : R) : Prop := / 2 ^ 160 <= x <= 2 ^ 160.

(** ** Invariants of the solver *)

(** [a] is [nan] or a number in relation [P]. *)
Definition nan_or (P : R -> Prop) (a : f64) : Prop :=
  match a with Fin x => P x | NaN => True end.

Section SolverSpec.

Variables z0 t er h tol : R.

(** Each stored impedance is the impedance of the width stored with it. *)
Definition consistent (s : solver_state) : Prop :=
  wheeler_z0 (width s) t er h = Ok (zm s) /\
  wheeler_z0 (wlow s) t er h = Ok (zlow s) /\
  wheeler_z0 (whigh s) t er h = Ok (zhigh s).

(** What the guards of lines 81 and 87 leave: each bracket impedance is
    on its side of the target, or [nan]. *)
Definition brackets_target (s : solver_state) : Prop :=
  nan_or (fun z => z >= z0) (zlow s) /\ nan_or (fun z => z <= z0) (zhigh s).

(** The two ends are numbers, in order, and the width is between them
    when it is a number. *)
Definition ordered (s : solver_state) : Prop :=
  exists lo hi,
    value (wlow s) = Fin lo /\ value (whigh s) = Fin hi /\ lo <= hi /\
    nan_or (fun x => lo <= x <= hi) (value (width s)).

Definition bracketed (s : solver_state) : Prop :=
  consistent s /\ brackets_target s /\ ordered s.

(** The change of the two ends from [s] to [s']: the low end does not
    go down, the high end does not go up. *)
Definition narrows (s s' : solver_state) : Prop :=
  exists lo hi lo' hi',
    value (wlow s) = Fin lo /\ value (whigh s) = Fin hi /\
    value (wlow s') = Fin lo' /\ value (whigh s') = Fin hi' /\
    lo <= lo' /\ hi' <= hi.

(** One turn of the interpolation loop: the guard holds and the body
    ends in [s']. *)
Definition iterates (s s' : solver_state) : Prop :=
  off_target z0 tol s = true /\ interpolate_step z0 t er h s = Ok s'.

(** The states the loop goes through from [s]. *)
Inductive reaches (s : solver_state) : solver_state -> Prop :=
| reaches_refl : reaches s s
| reaches_step s1 s2 : reaches s s1 -> iterates s1 s2 -> reaches s s2.

(** The loop of line 91 is left in a state whose impedance is within
    [tol] of the target, or [nan]. *)
Definition on_target (a : f64) : Prop :=
  nan_or (fun z => Rabs (z - z0) <= tol) a.

End SolverSpec.

(** * Properties *)

(** ** The primitive operations *)

Lemma bind_ok {A B} (c : outcome A) (k : A -> outcome B) b :
  (x <- c ;; k x) = Ok b -> exists a, c = Ok a /\ k a = Ok b.
Proof. destruct c; simpl; intros E; try discriminate. eauto. Qed.

Ltac bind_inv H :=
  let a := fresh "a" in
  let E := fresh "E" in
  apply bind_ok in H; destruct H as (a & E & H).

Lemma bind_raise {A B} (c : outcome A) (k : A -> outcome B) e :
  (x <- c ;; k x) = Raise e ->
  c = Raise e \/ exists a, c = Ok a /\ k a = Raise e.
Proof.
  destruct c as [a | e0 | |]; simpl; intros E; try discriminate.
  - right. exists a. split; [reflexivity | exact E].
  - left. inversion E. reflexivity.
Qed.

Lemma py_div_ok x y : y <> 0 -> py_div x y = Ok (x / y).
Proof.
  intros Hy. unfold py_div.
  destruct (Req_dec_T y 0); [contradiction | reflexivity].
Qed.

Lemma py_div_zero x : py_div x 0 = Raise ZeroDivisionError.
Proof.
  unfold py_div. destruct (Req_dec_T 0 0); [reflexivity | contradiction].
Qed.

Lemma py_div_inv x y q : py_div x y = Ok q -> y <> 0 /\ q = x / y.
Proof.
  unfold py_div. destruct (Req_dec_T y 0); intros E;
    [discriminate | inversion E; auto].
Qed.

Lemma py_div_raise x y e :
  py_div x y = Raise e -> y = 0 /\ e = ZeroDivisionError.
Proof.
  unfold py_div. destruct (Req_dec_T y 0); intros E; inversion E; auto.
Qed.

Lemma DBL_MAX_large : 16384 <= DBL_MAX.
Proof.
  unfold DBL_MAX.
  assert (H52 : 1 <= 2 ^ 52) by (apply pow_R1_Rle; lra).
  assert (Hi : / 2 ^ 52 <= 1).
  { rewrite <- Rinv_1. apply Rinv_le_contravar; lra. }
  assert (Hp : 2 ^ 14 <= 2 ^ 1023) by (apply Rle_pow; [lra | lia]).
  assert (H14 : 2 ^ 14 = 16384) by (simpl; lra).
  assert (0 <= 2 ^ 1023) by (apply pow_le; lra).
  nra.
Qed.

(** A number whose square is a double is a double. *)
Lemma square_in_range x : x ^ 2 <= DBL_MAX -> Rabs x <= DBL_MAX.
Proof.
  intros Hx. pose proof DBL_MAX_large as HM.
  replace (x ^ 2) with (Rabs x * Rabs x) in Hx
    by (rewrite <- Rabs_mult, Rabs_pos_eq; [ring | nra]).
  pose proof (Rabs_pos x). nra.
Qed.

Lemma py_square_ok x : x ^ 2 <= DBL_MAX -> py_square x = Ok (x ^ 2).
Proof.
  intros Hx. unfold py_square. pose proof (square_in_range x Hx).
  destruct (Rlt_dec DBL_MAX (Rabs x)); [lra |].
  destruct (Rlt_dec DBL_MAX (x ^ 2)); [lra | reflexivity].
Qed.

Lemma py_square_inv x q :
  py_square x = Ok q -> x ^ 2 <= DBL_MAX /\ q = x ^ 2.
Proof.
  unfold py_square. destruct (Rlt_dec DBL_MAX (Rabs x)); [discriminate |].
  destruct (Rlt_dec DBL_MAX (x ^ 2)); intros E;
    [discriminate | inversion E; split; [lra | reflexivity]].
Qed.

Lemma py_square_raise x e :
  py_square x = Raise e -> DBL_MAX < x ^ 2 /\ e = OverflowError.
Proof.
  unfold py_square. destruct (Rlt_dec DBL_MAX (Rabs x)); [discriminate |].
  destruct (Rlt_dec DBL_MAX (x ^ 2)); intros E; inversion E; auto.
Qed.

Lemma np_div_ok x y : y <> 0 -> np_div (Fin x) (Fin y) = Ok (Fin (x / y)).
Proof.
  intros Hy. unfold np_div.
  destruct (Req_dec_T y 0); [contradiction | reflexivity].
Qed.

Lemma np_div_nan_r a : np_div a NaN = Ok NaN.
Proof. destruct a; reflexivity. Qed.

Lemma np_div_no_raise a b e : np_div a b <> Raise e.
Proof.
  destruct a as [x |], b as [y |]; simpl; try discriminate.
  destruct (Req_dec_T y 0); [destruct (Req_dec_T x 0) |]; discriminate.
Qed.

(** What a division that returns has returned. *)
Lemma np_div_inv a b q :
  np_div a b = Ok q ->
  match a, b with
  | Fin x, Fin y => (y <> 0 /\ q = Fin (x / y)) \/ (y = 0 /\ x = 0 /\ q = NaN)
  | _, _ => q = NaN
  end.
Proof.
  destruct a as [x |], b as [y |]; simpl; intros E;
    try (inversion E; reflexivity).
  destruct (Req_dec_T y 0); [destruct (Req_dec_T x 0) |];
    try discriminate; inversion E; auto.
Qed.

Lemma np_sqrt_ok x : 0 <= x -> np_sqrt (Fin x) = Fin (sqrt x).
Proof.
  intros Hx. unfold np_sqrt. destruct (Rlt_dec x 0); [lra | reflexivity].
Qed.

Lemma np_sqrt_neg x : x < 0 -> np_sqrt (Fin x) = NaN.
Proof.
  intros Hx. unfold np_sqrt. destruct (Rlt_dec x 0); [reflexivity | lra].
Qed.

Lemma np_log_ok x : 0 < x -> np_log (Fin x) = Ok (Fin (ln x)).
Proof.
  intros Hx. unfold np_log. destruct (Rlt_dec x 0); [lra |].
  destruct (Req_dec_T x 0); [lra | reflexivity].
Qed.

Lemma np_log_neg x : x < 0 -> np_log (Fin x) = Ok NaN.
Proof.
  intros Hx. unfold np_log. destruct (Rlt_dec x 0); [reflexivity | lra].
Qed.

Lemma np_log_no_raise a e : np_log a <> Raise e.
Proof.
  destruct a as [x |]; simpl; try discriminate.
  destruct (Rlt_dec x 0); [discriminate |].
  destruct (Req_dec_T x 0); discriminate.
Qed.

Lemma np_log_nan q : np_log NaN = Ok q -> q = NaN.
Proof. simpl. intros E. now inversion E. Qed.

Lemma flt_false a y : flt a y = false <-> nan_or (fun x => x >= y) a.
Proof.
  destruct a as [x |]; simpl; [| tauto].
  destruct (Rlt_dec x y); split; intros H; try discriminate; auto; lra.
Qed.

Lemma fgt_true a y : fgt a y = true <-> exists x, a = Fin x /\ x > y.
Proof.
  destruct a as [x |]; simpl.
  - destruct (Rgt_dec x y); split; intros H; try discriminate; eauto.
    destruct H as (x' & E & H). inversion E; subst. contradiction.
  - split; [discriminate | intros (x & E & _); discriminate].
Qed.

Lemma fgt_false a y : fgt a y = false <-> nan_or (fun x => x <= y) a.
Proof.
  destruct a as [x |]; simpl; [| tauto].
  destruct (Rgt_dec x y); split; intros H; try discriminate; auto; lra.
Qed.

(** ** Real-number bounds used below *)

Lemma pow2_pos x : x <> 0 -> 0 < x ^ 2.
Proof.
  intros Hx. replace (x ^ 2) with (Rsqr x) by (unfold Rsqr; ring).
  now apply Rsqr_pos_lt.
Qed.

Lemma Rdiv_lt_contravar a x y : 0 < a -> 0 < x -> x < y -> a / y < a / x.
Proof.
  intros Ha Hx Hxy. unfold Rdiv. apply Rmult_lt_compat_l; [assumption |].
  apply Rinv_lt_contravar; [nra | assumption].
Qed.

Lemma Rdiv_le_upper a b c : 0 < b -> a <= c * b -> a / b <= c.
Proof.
  intros Hb H. assert (0 < / b) by (now apply Rinv_0_lt_compat).
  replace c with (c * b * / b) by (field; lra).
  unfold Rdiv. apply Rmult_le_compat_r; lra.
Qed.

Lemma Rdiv_le_lower a b c : 0 < b -> c * b <= a -> c <= a / b.
Proof.
  intros Hb H. assert (0 < / b) by (now apply Rinv_0_lt_compat).
  replace c with (c * b * / b) by (field; lra).
  unfold Rdiv. apply Rmult_le_compat_r; lra.
Qed.

Lemma sqrt_le_bound x y : 0 <= x -> 0 <= y -> x <= y * y -> sqrt x <= y.
Proof.
  intros Hx Hy Hxy. rewrite <- (sqrt_square y Hy).
  apply sqrt_le_1; nra.
Qed.

Lemma sqrt_ge_bound x y : 0 <= y -> y * y <= x -> y <= sqrt x.
Proof.
  intros Hy Hxy. rewrite <- (sqrt_square y Hy).
  apply sqrt_le_1; nra.
Qed.

Lemma ln_le_bound x y : 0 < x -> x <= exp y -> ln x <= y.
Proof.
  intros Hx Hxy. rewrite <- (ln_exp y).
  destruct Hxy as [Hlt | ->]; [left; now apply ln_increasing | right; reflexivity].
Qed.

Lemma ln_ge_bound x y : exp y <= x -> y <= ln x.
Proof.
  intros Hxy. rewrite <- (ln_exp y). pose proof (exp_pos y).
  destruct Hxy as [Hlt | <-]; [left; now apply ln_increasing | right; reflexivity].
Qed.

Lemma PI_gt_3 : 3 < PI.
Proof. pose proof PI2_3_2. lra. Qed.

Lemma PI_sqr_bounds : 9 <= PI ^ 2 <= 16.
Proof. pose proof PI_gt_3. pose proof PI_4. nra. Qed.

Lemma exp_1_bounds : 2 < exp 1 <= 3.
Proof. split; [pose proof (exp_ineq1 1); lra | apply exp_le_3]. Qed.

Lemma exp_double_bounds a b a' b' x x' :
  a <= exp x <= b -> 0 <= a -> a' <= a * a -> b * b <= b' -> x' = 2 * x ->
  a' <= exp x' <= b'.
Proof.
  intros [Ha Hb] Ha0 Ha' Hb' ->.
  replace (2 * x) with (x + x) by lra. rewrite exp_plus.
  pose proof (exp_pos x). split; nra.
Qed.

Lemma exp_neg_bounds y : 0 <= y -> 1 - y <= exp (- y) <= / (1 + y).
Proof.
  intros Hy. split.
  - pose proof (exp_ineq1_le (- y)). lra.
  - rewrite exp_Ropp. apply Rinv_le_contravar; [lra | apply exp_ineq1_le].
Qed.

(** [exp (-1.35 / 4)] and [exp (-1.35)] to three decimals, by squaring
    ten times from [1 - y <= exp (- y) <= 1 / (1 + y)] at [y = 1.35 / 1024]. *)
Lemma exp_m135_bounds :
  0.713392961 <= exp (- (1.35 / 4)) <= 0.713710781 /\
  0.259009252 <= exp (- (1.35)) <= 0.259471122.
Proof.
  assert (B0 : 0.998681640 <= exp (- (1.35 / 1024)) <= 0.998683377).
  { destruct (exp_neg_bounds (1.35 / 1024)) as [L U]; [lra |].
    split; [lra |]. eapply Rle_trans; [exact U |].
    apply Rmult_le_reg_l with (1 + 1.35 / 1024); [lra |].
    rewrite Rinv_r by lra. lra. }
  assert (B1 : 0.997365018 <= exp (- (1.35 / 512)) <= 0.997368488)
    by (apply (exp_double_bounds _ _ _ _ _ _ B0); lra).
  assert (B2 : 0.994736979 <= exp (- (1.35 / 256)) <= 0.994743901)
    by (apply (exp_double_bounds _ _ _ _ _ _ B1); lra).
  assert (B3 : 0.989501657 <= exp (- (1.35 / 128)) <= 0.989515429)
    by (apply (exp_double_bounds _ _ _ _ _ _ B2); lra).
  assert (B4 : 0.979113529 <= exp (- (1.35 / 64)) <= 0.979140785)
    by (apply (exp_double_bounds _ _ _ _ _ _ B3); lra).
  assert (B5 : 0.958663302 <= exp (- (1.35 / 32)) <= 0.958716677)
    by (apply (exp_double_bounds _ _ _ _ _ _ B4); lra).
  assert (B6 : 0.919035326 <= exp (- (1.35 / 16)) <= 0.919137667)
    by (apply (exp_double_bounds _ _ _ _ _ _ B5); lra).
  assert (B7 : 0.844625930 <= exp (- (1.35 / 8)) <= 0.844814051)
    by (apply (exp_double_bounds _ _ _ _ _ _ B6); lra).
  assert (B8 : 0.713392961 <= exp (- (1.35 / 4)) <= 0.713710781)
    by (apply (exp_double_bounds _ _ _ _ _ _ B7); lra).
  assert (B9 : 0.508929516 <= exp (- (1.35 / 2)) <= 0.509383079)
    by (apply (exp_double_bounds _ _ _ _ _ _ B8); lra).
  assert (B10 : 0.259009252 <= exp (- (1.35)) <= 0.259471122)
    by (apply (exp_double_bounds _ _ _ _ _ _ B9); lra).
  split; assumption.
Qed.

Lemma exp_lower_14 : 3 <= exp 1.4.
Proof.
  assert (B0 : 1.35 <= exp 0.35) by (pose proof (exp_ineq1_le 0.35); lra).
  assert (B1 : 1.82 <= exp 0.7).
  { replace 0.7 with (0.35 + 0.35) by lra. rewrite exp_plus. nra. }
  replace 1.4 with (0.7 + 0.7) by lra. rewrite exp_plus. nra.
Qed.

Lemma exp_lower_7 : 69 <= exp 7.
Proof.
  assert (B0 : 1.875 <= exp 0.875) by (pose proof (exp_ineq1_le 0.875); lra).
  assert (B1 : 3.5 <= exp 1.75).
  { replace 1.75 with (0.875 + 0.875) by lra. rewrite exp_plus. nra. }
  assert (B2 : 12 <= exp 3.5).
  { replace 3.5 with (1.75 + 1.75) by lra. rewrite exp_plus. nra. }
  replace 7 with (3.5 + 3.5) by lra. rewrite exp_plus. nra.
Qed.

(** ** [miter] *)

Lemma value_pymap f v : value (pymap f v) = lift1 f (value v).
Proof. destruct v; reflexivity. Qed.

Lemma truediv_numbers tw sh a b :
  value tw = Fin a -> value sh = Fin b -> b <> 0 ->
  truediv tw sh = Ok (Fin (a / b)).
Proof.
  intros Ha Hb Hnz.
  destruct tw as [x | x], sh as [y | y]; simpl in *;
    inversion Ha; inversion Hb; subst.
  - rewrite py_div_ok by assumption. reflexivity.
  - now apply np_div_ok.
  - now apply np_div_ok.
  - now apply np_div_ok.
Qed.

Lemma truediv_raise tw sh e :
  truediv tw sh = Raise e ->
  e = ZeroDivisionError /\ exists x, tw = PyFloat x /\ sh = PyFloat 0.
Proof.
  destruct tw as [x | a], sh as [y | b]; cbn [truediv value]; intros E;
    try (now apply np_div_no_raise in E).
  unfold py_div in E. destruct (Req_dec_T y 0) as [-> | Hy];
    simpl in E; inversion E.
  split; [reflexivity | exists x; split; reflexivity].
Qed.

Lemma miter_below tw sh a b :
  value tw = Fin a -> value sh = Fin b -> b <> 0 ->
  a / b < 0.25 -> miter tw sh = Raise invalid_ratio.
Proof.
  intros Ha Hb Hnz Hr. unfold miter.
  rewrite (truediv_numbers _ _ _ _ Ha Hb Hnz). cbn [bind flt].
  destruct (Rlt_dec (a / b) 0.25); [reflexivity | contradiction].
Qed.

Lemma miter_valid tw sh a b :
  value tw = Fin a -> value sh = Fin b -> b <> 0 ->
  a / b >= 0.25 ->
  miter tw sh = Ok (Fin (0.52 + 0.65 * exp (- (27 / 20) * a / b))).
Proof.
  intros Ha Hb Hnz Hr. unfold miter.
  rewrite (truediv_numbers _ _ _ _ Ha Hb Hnz). cbn [bind flt].
  destruct (Rlt_dec (a / b) 0.25); [lra |].
  assert (Hm : value (pymap (Rmult (- (27 / 20))) tw) = Fin (- (27 / 20) * a))
    by (rewrite value_pymap, Ha; reflexivity).
  rewrite (truediv_numbers _ _ _ _ Hm Hb Hnz). reflexivity.
Qed.

Lemma miter_at_ratio r :
  r >= 0.25 ->
  miter (PyFloat r) (PyFloat 1) = Ok (Fin (0.52 + 0.65 * exp (- (1.35 * r)))).
Proof.
  intros Hr. rewrite (miter_valid _ _ r 1) by (reflexivity || lra).
  replace (- (27 / 20) * r / 1) with (- (1.35 * r)) by lra. reflexivity.
Qed.

(** C2. [miter] fails with an error exactly when the ratio
    [trace_width / substrate_height] is below 0.25, the error is then the
    INVALID_RATIO one, and for a ratio of at least 0.25 a value is
    returned.  The ratio exists when the two arguments are numbers and
    [substrate_height] is not zero; they may be Python floats or numpy
    float64s. *)
Theorem miter_error_iff_ratio_below_quarter tw sh a b :
  value tw = Fin a -> value sh = Fin b -> b <> 0 ->
  (raises (miter tw sh) <-> a / b < 0.25) /\
  (a / b < 0.25 -> miter tw sh = Raise invalid_ratio) /\
  (a / b >= 0.25 -> exists v, miter tw sh = Ok (Fin v)).
Proof.
  intros Ha Hb Hnz. split; [split | split].
  - intros [e He]. destruct (Rlt_dec (a / b) 0.25) as [Hlt | Hge]; [assumption |].
    rewrite (miter_valid _ _ a b) in He by (assumption || lra). discriminate.
  - intros Hlt. exists invalid_ratio. apply (miter_below _ _ a b); assumption.
  - intros Hlt. apply (miter_below _ _ a b); assumption.
  - intros Hge. eexists. apply (miter_valid _ _ a b); assumption.
Qed.

Lemma miter_error_iff_ratio_below_quarter_witness :
  (5 : R) <> 0 /\ miter (PyFloat 1) (PyFloat 5) = Raise invalid_ratio.
Proof.
  assert (H : (5 : R) <> 0) by lra.
  split; [exact H |].
  apply (miter_error_iff_ratio_below_quarter (PyFloat 1) (PyFloat 5) 1 5
           eq_refl eq_refl H).
  lra.
Defined.

(** C5. For a ratio of at least 0.25, [miter] returns exactly
    [0.52 + 0.65 * exp (-1.35 * trace_width / substrate_height)]. *)
Theorem miter_formula tw sh a b :
  value tw = Fin a -> value sh = Fin b -> b <> 0 -> a / b >= 0.25 ->
  miter tw sh = Ok (Fin (0.52 + 0.65 * exp (-1.35 * a / b))).
Proof.
  intros Ha Hb Hnz Hr. rewrite (miter_valid _ _ a b) by assumption.
  replace (- (27 / 20) * a / b) with (-1.35 * a / b) by lra.
  reflexivity.
Qed.

Lemma miter_formula_witness :
  miter (PyFloat 3) (PyFloat 2) = Ok (Fin (0.52 + 0.65 * exp (-1.35 * 3 / 2))).
Proof. apply (miter_formula (PyFloat 3) (PyFloat 2) 3 2); (reflexivity || lra). Defined.

(** C6, as the spec states its two examples: the value at ratio 0.25 is
    more than 0.18 away from 1.169, and the value at ratio 1 more than
    0.011 away from 0.69996. *)
Lemma miter_examples_off :
  (exists v, miter (PyFloat 0.25) (PyFloat 1) = Ok (Fin v) /\
             0.18 < Rabs (v - 1.169)) /\
  (exists v, miter (PyFloat 1) (PyFloat 1) = Ok (Fin v) /\
             0.011 < Rabs (v - 0.69996)).
Proof.
  destruct exp_m135_bounds as [[L4 U4] [L1 U1]].
  split; eexists; (split; [apply miter_at_ratio; lra |]).
  - replace (1.35 * 0.25) with (1.35 / 4) by lra.
    rewrite Rabs_left; lra.
  - replace (1.35 * 1) with 1.35 by lra.
    rewrite Rabs_left; lra.
Qed.

(** C6, amended.  For a ratio of at least 0.25 the value lies in
    [0.52, 1.17]: over the reals it stays above 0.52, in doubles it
    reaches 0.52 once the exponential is below the last bit of 0.52.
    Ratio 1 gives 0.6885 and ratio 0.25 gives 0.9838, both to within
    0.0002. *)
Theorem miter_range :
  (forall tw sh a b,
     value tw = Fin a -> value sh = Fin b -> b <> 0 -> a / b >= 0.25 ->
     exists v, miter tw sh = Ok (Fin v) /\ 0.52 <= v <= 1.17) /\
  (exists v, miter (PyFloat 1) (PyFloat 1) = Ok (Fin v) /\
             0.6883 < v < 0.6887) /\
  (exists v, miter (PyFloat 0.25) (PyFloat 1) = Ok (Fin v) /\
             0.9836 < v < 0.9840).
Proof.
  destruct exp_m135_bounds as [[L4 U4] [L1 U1]].
  split; [| split].
  - intros tw sh a b Ha Hb Hnz Hr. eexists.
    split; [apply (miter_valid _ _ a b); assumption |].
    set (x := - (27 / 20) * a / b).
    assert (Hx : x <= 0).
    { unfold x. replace (- (27 / 20) * a / b) with (- (27 / 20) * (a / b))
        by (field; assumption). lra. }
    pose proof (exp_pos x).
    assert (exp x <= 1).
    { rewrite <- exp_0. destruct Hx as [Hlt | ->];
        [left; now apply exp_increasing | right; reflexivity]. }
    lra.
  - eexists. split; [apply miter_at_ratio; lra |].
    replace (1.35 * 1) with 1.35 by lra. lra.
  - eexists. split; [apply miter_at_ratio; lra |].
    replace (1.35 * 0.25) with (1.35 / 4) by lra. lra.
Qed.

Lemma miter_range_witness :
  exists v, miter (PyFloat 2) (PyFloat 1) = Ok (Fin v) /\ 0.52 <= v <= 1.17.
Proof.
  apply (proj1 miter_range (PyFloat 2) (PyFloat 1) 2 1); (reflexivity || lra).
Defined.

(** C10, as stated: with a numpy float64 width, as [wheeler_z0_width]
    returns one, the division of line 113 is numpy's and raises no
    [ZeroDivisionError] for a zero height. *)
Lemma miter_float64_width_zero_height :
  miter (NpFloat64 (Fin 1)) (PyFloat 0) <> Raise ZeroDivisionError.
Proof.
  intros E. apply bind_raise in E. destruct E as [E | (r & _ & E)].
  - now apply np_div_no_raise in E.
  - destruct (flt r 0.25); [discriminate |].
    apply bind_raise in E. destruct E as [E | (x & _ & E)];
      [now apply np_div_no_raise in E | discriminate].
Qed.

(** C10, amended.  For every Python float [trace_width], [miter] with
    the Python float zero as [substrate_height] raises
    [ZeroDivisionError] from the ratio computation itself: not the
    INVALID_RATIO error, and no value.  [ZeroDivisionError] is raised
    in no other case: not for a float64 argument, not for a non-zero
    height. *)
Theorem miter_zero_height :
  (forall tw,
     miter (PyFloat tw) (PyFloat 0) = Raise ZeroDivisionError /\
     miter (PyFloat tw) (PyFloat 0) <> Raise invalid_ratio /\
     (forall v, miter (PyFloat tw) (PyFloat 0) <> Ok v)) /\
  (forall tw sh,
     miter tw sh = Raise ZeroDivisionError ->
     exists x, tw = PyFloat x /\ sh = PyFloat 0).
Proof.
  split.
  - intros tw.
    assert (E : miter (PyFloat tw) (PyFloat 0) = Raise ZeroDivisionError).
    { unfold miter, truediv. rewrite py_div_zero. reflexivity. }
    rewrite E. repeat split; intros; discriminate.
  - intros tw sh E. unfold miter in E.
    apply bind_raise in E. destruct E as [E | (r & _ & E)].
    + now apply truediv_raise in E.
    + destruct (flt r 0.25); [discriminate |].
      apply bind_raise in E. destruct E as [E | (x & _ & E)]; [| discriminate].
      apply truediv_raise in E. destruct E as (_ & x & Hx & Hs).
      destruct tw as [y | a]; [eauto | discriminate].
Qed.

Lemma miter_zero_height_witness :
  miter (PyFloat 1) (PyFloat 0) = Raise ZeroDivisionError /\
  exists x, PyFloat 1 = PyFloat x /\ PyFloat 0 = PyFloat 0.
Proof.
  assert (E : miter (PyFloat 1) (PyFloat 0) = Raise ZeroDivisionError)
    by exact (proj1 (proj1 miter_zero_height 1)).
  split; [exact E |].
  exact (proj2 miter_zero_height (PyFloat 1) (PyFloat 0) E).
Defined.

(** ** [coax_core_diameter] *)

Lemma Rpower10_pos x : 0 < Rpower 10 x.
Proof. unfold Rpower. apply exp_pos. Qed.

Lemma coax_valid od x p imp :
  value od = Fin x -> 0 <= p ->
  coax_core_diameter od p imp = Ok (Fin (x / Rpower 10 (imp * sqrt p / 138))).
Proof.
  intros Hx Hp. unfold coax_core_diameter. rewrite Hx, np_sqrt_ok by assumption.
  cbn [fmul lift2 lift1 np_power10]. apply np_div_ok.
  apply Rgt_not_eq, Rpower10_pos.
Qed.

Lemma coax_negative od p imp :
  p < 0 -> coax_core_diameter od p imp = Ok NaN.
Proof.
  intros Hp. unfold coax_core_diameter. rewrite np_sqrt_neg by assumption.
  cbn [fmul lift2 lift1 np_power10]. apply np_div_nan_r.
Qed.

(** C7. [coax_core_diameter] is the formula
    [outer_diameter / 10^(impedance * sqrt(permittivity) / 138)] and checks
    nothing: it never raises, and for a negative permittivity the square
    root, and with it the result, is numpy's [nan]. *)
Theorem coax_core_diameter_formula od p imp :
  coax_core_diameter (PyFloat od) p imp =
    Ok (if Rlt_dec p 0 then NaN
        else Fin (od / Rpower 10 (imp * sqrt p / 138))) /\
  ~ raises (coax_core_diameter (PyFloat od) p imp).
Proof.
  assert (E : coax_core_diameter (PyFloat od) p imp =
              Ok (if Rlt_dec p 0 then NaN
                  else Fin (od / Rpower 10 (imp * sqrt p / 138)))).
  { destruct (Rlt_dec p 0) as [Hlt | Hge].
    - now apply coax_negative.
    - apply coax_valid; [reflexivity | lra]. }
  split; [exact E |].
  rewrite E. intros [e He]. discriminate.
Qed.

(** C8. The example of the spec gives a core strictly between zero and
    the outer diameter, and a zero impedance gives back the outer diameter
    itself for every non-negative permittivity. *)
Theorem coax_core_diameter_examples :
  (exists v, coax_core_diameter (PyFloat 0.01) 2.1 50 = Ok (Fin v) /\
             0 < v < 0.01) /\
  (forall od p, p >= 0 -> coax_core_diameter (PyFloat od) p 0 = Ok (Fin od)).
Proof.
  split.
  - eexists. split; [apply coax_valid; [reflexivity | lra] |].
    set (x := 50 * sqrt 2.1 / 138).
    assert (Hs : 0 < sqrt 2.1) by (apply sqrt_lt_R0; lra).
    assert (Hx : 0 < x) by (unfold x; lra).
    assert (Hl : 0 < ln 10) by (rewrite <- ln_1; apply ln_increasing; lra).
    assert (Hp : 1 < Rpower 10 x).
    { unfold Rpower. rewrite <- exp_0. apply exp_increasing.
      apply Rmult_lt_0_compat; assumption. }
    split; [apply Rdiv_lt_0_compat; lra |].
    assert (0.01 / Rpower 10 x < 0.01 / 1) by (apply Rdiv_lt_contravar; lra).
    lra.
  - intros od p Hp. rewrite (coax_valid _ od) by (reflexivity || lra).
    replace (0 * sqrt p / 138) with 0 by lra.
    rewrite Rpower_O by lra. do 2 f_equal. field.
Qed.

Lemma coax_core_diameter_examples_witness :
  coax_core_diameter (PyFloat 0.01) 2.1 0 = Ok (Fin 0.01).
Proof. apply (proj2 coax_core_diameter_examples 0.01 2.1). lra. Defined.

(** ** [wheeler_z0] *)

(** *** The value of a run on numbers *)

Lemma width_term_value w x t :
  value w = Fin x -> t <> 0 -> x / t + 11 / 10 <> 0 ->
  ((1 / PI) * (1 / (x / t + 11 / 10))) ^ 2 <= DBL_MAX ->
  width_term w t = Ok (Fin (((1 / PI) * (1 / (x / t + 11 / 10))) ^ 2)).
Proof.
  intros Hx Ht Hu Ho. destruct w as [y | a]; simpl in Hx; inversion Hx; subst;
    unfold width_term.
  - rewrite py_div_ok by assumption. cbn [bind].
    rewrite py_div_ok by assumption. cbn [bind].
    rewrite py_square_ok by assumption. reflexivity.
  - rewrite np_div_ok by assumption. cbn [bind fadd lift2].
    rewrite np_div_ok by assumption. reflexivity.
Qed.

Lemma wheeler_weff_value w x t er h :
  value w = Fin x ->
  er <> 0 -> h <> 0 -> t <> 0 -> x / t + 11 / 10 <> 0 ->
  (t / h) ^ 2 <= DBL_MAX ->
  ((1 / PI) * (1 / (x / t + 11 / 10))) ^ 2 <= DBL_MAX ->
  wheeler_weff w t er h = Ok (Fin (weff_formula x t er h)).
Proof.
  intros Hx Her Hh Ht Hu Ho1 Ho2. unfold wheeler_weff.
  rewrite !py_div_ok by assumption. cbn [bind].
  rewrite py_square_ok by assumption. cbn [bind].
  rewrite (width_term_value w x) by assumption. cbn [bind fadd lift2].
  set (q := (t / h) ^ 2 + (1 / PI * (1 / (x / t + 11 / 10))) ^ 2).
  assert (Hth : t / h <> 0).
  { unfold Rdiv. apply Rmult_integral_contrapositive_currified;
      [assumption | now apply Rinv_neq_0_compat]. }
  assert (Hq : 0 < q).
  { unfold q. assert (0 < (t / h) ^ 2) by (apply pow2_pos; assumption).
    pose proof (pow2_ge_0 (1 / PI * (1 / (x / t + 11 / 10)))). lra. }
  rewrite np_sqrt_ok by lra.
  pose proof (sqrt_lt_R0 q Hq) as Hs.
  rewrite np_div_ok by lra. cbn [bind].
  assert (0 < 4 * exp 1 / sqrt q).
  { apply Rdiv_lt_0_compat; [pose proof (exp_pos 1); lra | assumption]. }
  rewrite np_log_ok by assumption. cbn [bind]. rewrite Hx. reflexivity.
Qed.

(** A run of [wheeler_weff] that returns has not overflowed at line 26. *)
Lemma wheeler_weff_no_overflow w t er h e :
  wheeler_weff w t er h = Ok e ->
  er <> 0 /\ h <> 0 /\ (t / h) ^ 2 <= DBL_MAX.
Proof.
  unfold wheeler_weff. intros E.
  bind_inv E. apply py_div_inv in E0. destruct E0 as [Her _].
  bind_inv E. apply py_div_inv in E0. destruct E0 as [Hh ->].
  bind_inv E. apply py_square_inv in E0. tauto.
Qed.

(** The second half of [wheeler_z0], from an effective width that is
    a number. *)
Lemma wheeler_z0_tail w t er h e :
  wheeler_weff w t er h = Ok (Fin e) -> 0 < er -> e <> 0 ->
  wheeler_z0 w t er h =
    (l <- np_log (Fin (log_argument e er h)) ;;
     Ok (fmul (Fin (376.730313668 / (2 * PI * sqrt (2 * (1 + er))))) l)).
Proof.
  intros He Her He0. unfold wheeler_z0. rewrite He. cbn [bind].
  rewrite np_div_ok by assumption. cbn [bind].
  rewrite !py_div_ok by lra. cbn [bind].
  assert (H2 : 0 < 2 * (1 + er)) by lra.
  rewrite np_sqrt_ok by lra. cbn [fmul lift2].
  pose proof (sqrt_lt_R0 _ H2) as Hs2. pose proof PI_RGT_0 as Hpi.
  rewrite np_div_ok by (apply Rgt_not_eq; apply Rmult_lt_0_compat; lra).
  cbn [bind fsquare lift1 fadd lift2].
  set (tmp2 := (14 + 8 / er) / 11) in *.
  set (tmp1 := 4 * h / e) in *.
  assert (Hb : 0 <= PI ^ 2 * ((1 + 1 / er) / 2)).
  { assert (0 < 1 / er) by (apply Rdiv_lt_0_compat; lra).
    apply Rmult_le_pos; [apply pow2_ge_0 | lra]. }
  pose proof (pow2_ge_0 (tmp2 * tmp1)).
  rewrite np_sqrt_ok by lra. cbn [fadd fmul lift2].
  reflexivity.
Qed.

Lemma wheeler_z0_of_weff w t er h e :
  wheeler_weff w t er h = Ok (Fin e) ->
  0 < er -> e <> 0 -> 0 < log_argument e er h ->
  wheeler_z0 w t er h = Ok (Fin (impedance_of_weff e er h)).
Proof.
  intros He Her He0 Harg. rewrite (wheeler_z0_tail _ _ _ _ _ He Her He0).
  rewrite np_log_ok by assumption. reflexivity.
Qed.

Lemma wheeler_z0_nan_of_weff w t er h e :
  wheeler_weff w t er h = Ok (Fin e) ->
  0 < er -> e <> 0 -> log_argument e er h < 0 ->
  wheeler_z0 w t er h = Ok NaN.
Proof.
  intros He Her He0 Harg. rewrite (wheeler_z0_tail _ _ _ _ _ He Her He0).
  rewrite np_log_neg by assumption. reflexivity.
Qed.

(** *** A width that is [nan] *)

Lemma fmul_nan_r a : fmul a NaN = NaN.
Proof. destruct a; reflexivity. Qed.

Lemma fadd_nan_r a : fadd a NaN = NaN.
Proof. destruct a; reflexivity. Qed.

Lemma wheeler_weff_nan_width w t er h e :
  value w = NaN -> wheeler_weff w t er h = Ok e -> e = NaN.
Proof.
  unfold wheeler_weff. intros Hw E.
  bind_inv E. bind_inv E. bind_inv E. bind_inv E. bind_inv E. bind_inv E.
  inversion E. rewrite Hw. reflexivity.
Qed.

(** The impedance of a [nan] width is [nan]. *)
Lemma wheeler_z0_nan_width w t er h z :
  value w = NaN -> wheeler_z0 w t er h = Ok z -> z = NaN.
Proof.
  unfold wheeler_z0. intros Hw E.
  bind_inv E. apply (wheeler_weff_nan_width _ _ _ _ _ Hw) in E0. subst a.
  bind_inv E. rewrite np_div_nan_r in E0. inversion E0; subst a; clear E0.
  bind_inv E. bind_inv E. bind_inv E.
  rewrite fmul_nan_r in E. cbn [fsquare lift1 fadd lift2 np_sqrt] in E.
  cbn [np_log bind] in E. inversion E.
  apply fmul_nan_r.
Qed.

Lemma wheeler_z0_number_width w t er h z :
  wheeler_z0 w t er h = Ok (Fin z) -> exists x, value w = Fin x.
Proof.
  intros E. destruct (value w) as [x |] eqn:Hw; [eauto |].
  apply (wheeler_z0_nan_width _ _ _ _ _ Hw) in E. discriminate.
Qed.

(** *** Monotonicity of the closed forms *)

Section Monotone.

Variables t er h : R.
Hypothesis Ht : 0 < t.
Hypothesis Hh : 0 < h.
Hypothesis Her : 0 < er.

Lemma weff_formula_increasing w1 w2 :
  0 <= w1 -> w1 < w2 ->
  weff_formula w1 t er h < weff_formula w2 t er h.
Proof.
  intros Hw1 Hw. unfold weff_formula.
  set (c := t * ((1 + 1 / er) / (2 * PI))).
  set (A := (t / h) ^ 2).
  assert (Hc : 0 < c).
  { unfold c. pose proof PI_RGT_0.
    assert (0 < 1 / er) by (apply Rdiv_lt_0_compat; lra).
    apply Rmult_lt_0_compat; [assumption |].
    apply Rdiv_lt_0_compat; lra. }
  assert (HA : 0 < A).
  { unfold A. apply pow2_pos. apply Rgt_not_eq. apply Rdiv_lt_0_compat; assumption. }
  set (u1 := w1 / t + 11 / 10). set (u2 := w2 / t + 11 / 10).
  assert (Hu1 : 0 < u1).
  { unfold u1. assert (0 <= w1 / t) by (apply Rle_mult_inv_pos; assumption). lra. }
  assert (Hu : u1 < u2).
  { unfold u1, u2, Rdiv. assert (0 < / t) by (now apply Rinv_0_lt_compat). nra. }
  set (p1 := 1 / PI * (1 / u1)). set (p2 := 1 / PI * (1 / u2)).
  assert (Hip : 0 < 1 / PI) by (apply Rdiv_lt_0_compat; [lra | apply PI_RGT_0]).
  assert (Hr : 1 / u2 < 1 / u1) by (apply Rdiv_lt_contravar; lra).
  assert (Hr2 : 0 < 1 / u2) by (apply Rdiv_lt_0_compat; lra).
  assert (Hp2 : 0 < p2) by (unfold p2; apply Rmult_lt_0_compat; assumption).
  assert (Hp : p2 < p1) by (unfold p1, p2; apply Rmult_lt_compat_l; assumption).
  assert (Hq : A + p2 ^ 2 < A + p1 ^ 2) by nra.
  assert (Hq2 : 0 < A + p2 ^ 2) by nra.
  assert (Hs : sqrt (A + p2 ^ 2) < sqrt (A + p1 ^ 2)) by (apply sqrt_lt_1; lra).
  assert (Hs2 : 0 < sqrt (A + p2 ^ 2)) by (now apply sqrt_lt_R0).
  assert (He : 0 < 4 * exp 1) by (pose proof (exp_pos 1); lra).
  assert (Ha : 4 * exp 1 / sqrt (A + p1 ^ 2) < 4 * exp 1 / sqrt (A + p2 ^ 2))
    by (apply Rdiv_lt_contravar; assumption).
  assert (Ha1 : 0 < 4 * exp 1 / sqrt (A + p1 ^ 2))
    by (apply Rdiv_lt_0_compat; lra).
  pose proof (ln_increasing _ _ Ha1 Ha) as Hl.
  nra.
Qed.

Lemma log_argument_decreasing e1 e2 :
  0 < e1 -> e1 < e2 ->
  1 < log_argument e2 er h < log_argument e1 er h.
Proof.
  intros He1 He. unfold log_argument.
  set (a := (14 + 8 / er) / 11).
  set (b := PI ^ 2 * ((1 + 1 / er) / 2)).
  set (x1 := 4 * h / e1). set (x2 := 4 * h / e2).
  assert (Hie : 0 < 1 / er) by (apply Rdiv_lt_0_compat; lra).
  assert (Ha : 0 < a).
  { unfold a. apply Rdiv_lt_0_compat; [| lra].
    assert (0 < 8 / er) by (apply Rdiv_lt_0_compat; lra). lra. }
  assert (Hb : 0 <= b).
  { unfold b. apply Rmult_le_pos; [apply pow2_ge_0 | lra]. }
  assert (Hx2 : 0 < x2) by (unfold x2; apply Rdiv_lt_0_compat; lra).
  assert (Hx : x2 < x1) by (unfold x1, x2; apply Rdiv_lt_contravar; lra).
  assert (Hax : a * x2 < a * x1) by (apply Rmult_lt_compat_l; assumption).
  assert (Hax2 : 0 < a * x2) by (apply Rmult_lt_0_compat; assumption).
  assert (Hpw : (a * x2) ^ 2 <= (a * x1) ^ 2) by (apply pow_incr; lra).
  assert (Hsq : (a * x2) ^ 2 + b <= (a * x1) ^ 2 + b) by lra.
  assert (Hsq2 : 0 <= (a * x2) ^ 2 + b) by (pose proof (pow2_ge_0 (a * x2)); lra).
  assert (Hsq1 : 0 <= (a * x1) ^ 2 + b) by lra.
  pose proof (sqrt_le_1 _ _ Hsq2 Hsq1 Hsq) as Hs.
  pose proof (sqrt_pos ((a * x2) ^ 2 + b)) as Hs2.
  set (s1 := sqrt ((a * x1) ^ 2 + b)) in *.
  set (s2 := sqrt ((a * x2) ^ 2 + b)) in *.
  split; nra.
Qed.

Lemma impedance_scale_pos :
  0 < 376.730313668 / (2 * PI * sqrt (2 * (1 + er))).
Proof.
  pose proof PI_RGT_0.
  assert (0 < sqrt (2 * (1 + er))) by (apply sqrt_lt_R0; lra).
  apply Rdiv_lt_0_compat; [lra |].
  apply Rmult_lt_0_compat; lra.
Qed.

Lemma impedance_of_weff_decreasing e1 e2 :
  0 < e1 -> e1 < e2 ->
  0 < impedance_of_weff e2 er h < impedance_of_weff e1 er h.
Proof.
  intros He1 He. unfold impedance_of_weff.
  destruct (log_argument_decreasing e1 e2 He1 He) as [H1 H2].
  pose proof impedance_scale_pos as HK.
  assert (Hl2 : 0 < ln (log_argument e2 er h)).
  { rewrite <- ln_1. apply ln_increasing; lra. }
  assert (Hl : ln (log_argument e2 er h) < ln (log_argument e1 er h))
    by (apply ln_increasing; lra).
  split; [apply Rmult_lt_0_compat; assumption |].
  apply Rmult_lt_compat_l; assumption.
Qed.

Lemma impedance_of_weff_pos e :
  0 < e -> 0 < impedance_of_weff e er h.
Proof.
  intros He. destruct (impedance_of_weff_decreasing (e / 2) e); lra.
Qed.

End Monotone.

Lemma width_term_small x t :
  0 < t -> 0 <= x ->
  0 <= (1 / PI) * (1 / (x / t + 11 / 10)) <= 1 /\
  ((1 / PI) * (1 / (x / t + 11 / 10))) ^ 2 <= DBL_MAX.
Proof.
  intros Ht Hx. pose proof PI_gt_3 as Hpi.
  assert (Hxt : 0 <= x / t) by (apply Rle_mult_inv_pos; assumption).
  assert (Hi : 0 < 1 / PI <= 1).
  { split; [apply Rdiv_lt_0_compat; lra | apply Rdiv_le_upper; lra]. }
  assert (Hu : 0 < 1 / (x / t + 11 / 10) <= 1).
  { split; [apply Rdiv_lt_0_compat; lra | apply Rdiv_le_upper; lra]. }
  set (p := 1 / PI * (1 / (x / t + 11 / 10))) in *.
  assert (Hp : 0 <= p <= 1) by (unfold p; nra).
  split; [assumption |].
  assert (p ^ 2 <= 1).
  { replace 1 with (1 ^ 2) by lra. apply pow_incr; lra. }
  pose proof DBL_MAX_large. lra.
Qed.

(** The value of [wheeler_z0] at a non-negative width with a positive
    effective width, in a geometry with [t], [h], [er] positive. *)
Lemma wheeler_z0_value w x t er h :
  0 < t -> 0 < h -> 0 < er ->
  value w = Fin x -> 0 <= x -> 0 < weff_formula x t er h ->
  (t / h) ^ 2 <= DBL_MAX ->
  wheeler_z0 w t er h = Ok (Fin (z0_formula x t er h)).
Proof.
  intros Ht Hh Her Hw Hx He Ho. unfold z0_formula.
  destruct (width_term_small x t Ht Hx) as [_ Ho2].
  apply wheeler_z0_of_weff; try lra.
  - apply wheeler_weff_value; try assumption; try lra.
    assert (0 <= x / t) by (apply Rle_mult_inv_pos; assumption). lra.
  - destruct (log_argument_decreasing er h Hh Her
                (weff_formula x t er h / 2) (weff_formula x t er h)); lra.
Qed.

(** *** The unit geometry [t = er = h = 1] *)

Lemma weff_unit_bounds w :
  0 <= w -> w <= weff_formula w 1 1 1 <= w + 1.
Proof.
  intros Hw. unfold weff_formula.
  pose proof PI_gt_3 as Hpi. pose proof exp_1_bounds as [He2 He3].
  set (p := 1 / PI * (1 / (w / 1 + 11 / 10))).
  assert (Hp : 0 <= p <= 1).
  { unfold p.
    assert (Hi : 0 < 1 / PI <= 1).
    { split; [apply Rdiv_lt_0_compat; lra | apply Rdiv_le_upper; lra]. }
    assert (Hu : 0 < 1 / (w / 1 + 11 / 10) <= 1).
    { split; [apply Rdiv_lt_0_compat; lra | apply Rdiv_le_upper; lra]. }
    nra. }
  set (q := (1 / 1) ^ 2 + p ^ 2).
  assert (Hp2 : 0 <= p ^ 2 <= 1).
  { split; [apply pow2_ge_0 |]. replace 1 with (1 ^ 2) by lra. apply pow_incr; lra. }
  assert (Hq : 1 <= q <= 2).
  { unfold q. replace ((1 / 1) ^ 2) with 1 by field. lra. }
  assert (Hs : 1 <= sqrt q <= 2).
  { split; [apply sqrt_ge_bound; lra | apply sqrt_le_bound; lra]. }
  set (a := 4 * exp 1 / sqrt q).
  assert (Ha : 1 <= a <= exp 3).
  { unfold a. split.
    - apply Rdiv_le_lower; lra.
    - apply Rdiv_le_upper; [lra |].
      replace 3 with (1 + (1 + 1)) by lra. rewrite !exp_plus.
      set (E := exp 1) in *.
      assert (4 <= E * E) by nra.
      assert (4 * E <= E * (E * E)) by nra.
      assert (E * (E * E) * 1 <= E * (E * E) * sqrt q)
        by (apply Rmult_le_compat_l; nra).
      lra. }
  assert (Hl : 0 <= ln a <= 3).
  { split; [rewrite <- ln_1; apply ln_ge_bound; rewrite ln_1, exp_0; lra |
            apply ln_le_bound; lra]. }
  set (c := 1 * ((1 + 1 / 1) / (2 * PI))).
  assert (Hc : 0 < c < / 3).
  { unfold c. replace (1 * ((1 + 1 / 1) / (2 * PI))) with (/ PI) by (field; lra).
    split; [apply Rinv_0_lt_compat; lra | apply Rinv_lt_contravar; lra]. }
  nra.
Qed.

Lemma impedance_scale_unit :
  23.54 <= 376.730313668 / (2 * PI * sqrt (2 * (1 + 1))) <= 31.4.
Proof.
  pose proof PI_gt_3. pose proof PI_4.
  replace (2 * (1 + 1)) with (2 * 2) by lra. rewrite sqrt_square by lra.
  split; [apply Rdiv_le_lower | apply Rdiv_le_upper]; lra.
Qed.

Lemma log_argument_unit e :
  log_argument e 1 1 =
  1 + 4 / e * (2 * (4 / e) + sqrt ((2 * (4 / e)) ^ 2 + PI ^ 2)).
Proof.
  unfold log_argument.
  replace (4 * 1 / e) with (4 / e) by (unfold Rdiv; ring).
  replace ((14 + 8 / 1) / 11) with 2 by lra.
  replace (PI ^ 2 * ((1 + 1 / 1) / 2)) with (PI ^ 2) by lra.
  reflexivity.
Qed.

Lemma impedance_weff_2 : 47.08 <= impedance_of_weff 2 1 1.
Proof.
  unfold impedance_of_weff. rewrite log_argument_unit.
  pose proof impedance_scale_unit as [HK _]. pose proof PI_sqr_bounds as [Hp _].
  replace (4 / 2) with 2 by lra.
  assert (Hs : 5 <= sqrt ((2 * 2) ^ 2 + PI ^ 2)) by (apply sqrt_ge_bound; lra).
  assert (Hl : 2 <= ln (1 + 2 * (2 * 2 + sqrt ((2 * 2) ^ 2 + PI ^ 2)))).
  { apply ln_ge_bound. replace 2 with (1 + 1) at 1 by lra. rewrite exp_plus.
    pose proof exp_1_bounds. pose proof (exp_pos 1). nra. }
  nra.
Qed.

Lemma impedance_weff_10 : impedance_of_weff 10 1 1 <= 44.
Proof.
  unfold impedance_of_weff. rewrite log_argument_unit.
  pose proof impedance_scale_unit as [HK0 HK]. pose proof PI_sqr_bounds as [Hp0 Hp].
  replace (4 / 10) with 0.4 by lra.
  pose proof (pow2_ge_0 PI).
  assert (Hs : sqrt ((2 * 0.4) ^ 2 + PI ^ 2) <= 4.08) by (apply sqrt_le_bound; lra).
  pose proof (sqrt_pos ((2 * 0.4) ^ 2 + PI ^ 2)) as Hs0.
  assert (Hl : ln (1 + 0.4 * (2 * 0.4 + sqrt ((2 * 0.4) ^ 2 + PI ^ 2))) <= 1.4).
  { apply ln_le_bound; [nra |]. pose proof exp_lower_14. nra. }
  assert (Hl0 : 0 <= ln (1 + 0.4 * (2 * 0.4 + sqrt ((2 * 0.4) ^ 2 + PI ^ 2)))).
  { rewrite <- ln_1. apply ln_ge_bound. rewrite ln_1, exp_0. nra. }
  nra.
Qed.

Lemma impedance_weff_1 : impedance_of_weff 1 1 1 <= 220.
Proof.
  unfold impedance_of_weff. rewrite log_argument_unit.
  pose proof impedance_scale_unit as [HK0 HK]. pose proof PI_sqr_bounds as [Hp0 Hp].
  replace (4 / 1) with 4 by lra.
  assert (Hs : sqrt ((2 * 4) ^ 2 + PI ^ 2) <= 9) by (apply sqrt_le_bound; lra).
  pose proof (sqrt_pos ((2 * 4) ^ 2 + PI ^ 2)) as Hs0.
  assert (Hl : ln (1 + 4 * (2 * 4 + sqrt ((2 * 4) ^ 2 + PI ^ 2))) <= 7).
  { apply ln_le_bound; [nra |]. pose proof exp_lower_7. nra. }
  assert (Hl0 : 0 <= ln (1 + 4 * (2 * 4 + sqrt ((2 * 4) ^ 2 + PI ^ 2)))).
  { rewrite <- ln_1. apply ln_ge_bound. rewrite ln_1, exp_0. nra. }
  nra.
Qed.

Lemma impedance_of_weff_antitone e1 e2 :
  0 < e1 -> e1 <= e2 -> impedance_of_weff e2 1 1 <= impedance_of_weff e1 1 1.
Proof.
  intros H1 [Hlt | ->]; [| lra].
  destruct (impedance_of_weff_decreasing 1 1 ltac:(lra) ltac:(lra) e1 e2 H1 Hlt). lra.
Qed.

Lemma z0_unit_narrow w :
  0 < w -> w <= 1 -> 47.08 <= z0_formula w 1 1 1.
Proof.
  intros H0 H1. unfold z0_formula.
  destruct (weff_unit_bounds w ltac:(lra)) as [Hl Hu].
  eapply Rle_trans; [apply impedance_weff_2 |].
  apply impedance_of_weff_antitone; lra.
Qed.

Lemma z0_unit_wide w :
  10 <= w -> z0_formula w 1 1 1 <= 44.
Proof.
  intros H0. unfold z0_formula.
  destruct (weff_unit_bounds w ltac:(lra)) as [Hl Hu].
  eapply Rle_trans; [| apply impedance_weff_10].
  apply impedance_of_weff_antitone; lra.
Qed.

Lemma z0_unit_upper w :
  1 <= w -> z0_formula w 1 1 1 <= 220.
Proof.
  intros H0. unfold z0_formula.
  destruct (weff_unit_bounds w ltac:(lra)) as [Hl Hu].
  eapply Rle_trans; [| apply impedance_weff_1].
  apply impedance_of_weff_antitone; lra.
Qed.

Lemma in_range_pos x : in_range x -> 0 < x.
Proof.
  intros [Hl _]. assert (0 < 2 ^ 160) by (apply pow_lt; lra).
  assert (0 < / 2 ^ 160) by (now apply Rinv_0_lt_compat). lra.
Qed.

Lemma in_range_moderate x : / 1048576 <= x <= 1048576 -> in_range x.
Proof.
  intros [Hl Hu].
  assert (H20 : 2 ^ 20 = 1048576) by (simpl; lra).
  assert (Hp : 2 ^ 20 <= 2 ^ 160) by (apply Rle_pow; [lra | lia]).
  assert (Hi : / 2 ^ 160 <= / 2 ^ 20).
  { apply Rinv_le_contravar; [rewrite H20; lra | assumption]. }
  rewrite H20 in Hp, Hi. split; lra.
Qed.

Lemma unit_no_overflow : (1 / 1) ^ 2 <= DBL_MAX.
Proof. pose proof DBL_MAX_large. replace ((1 / 1) ^ 2) with 1 by field. lra. Qed.

Lemma wheeler_z0_unit w x :
  value w = Fin x -> 0 < x ->
  wheeler_z0 w 1 1 1 = Ok (Fin (z0_formula x 1 1 1)).
Proof.
  intros Hw Hx. destruct (weff_unit_bounds x ltac:(lra)).
  apply wheeler_z0_value; try lra; [assumption | apply unit_no_overflow].
Qed.

(** C3, amended.  For widths [0 < w1 < w2], positive [t] and [h] and
    [er >= 1], all of them far from the ends of the range of doubles,
    and a positive effective width [weff] (line 20) at [w1],
    [wheeler_z0] returns a number at both widths, and the impedance at
    [w2] is not negative and not above the impedance at [w1].  (Over the
    reals both comparisons are strict; in doubles the argument of the
    logarithm of line 34 rounds to 1 for a very wide trace, and the
    impedance is exactly zero from there on.) *)
Theorem wheeler_z0_positive_decreasing (w1 w2 : pynum) x1 x2 t er h e1 :
  value w1 = Fin x1 -> value w2 = Fin x2 ->
  in_range x1 -> in_range x2 -> in_range t -> in_range h -> in_range er ->
  x1 < x2 -> 1 <= er ->
  wheeler_weff w1 t er h = Ok (Fin e1) -> 0 < e1 ->
  exists z1 z2,
    wheeler_z0 w1 t er h = Ok (Fin z1) /\
    wheeler_z0 w2 t er h = Ok (Fin z2) /\
    0 <= z2 <= z1.
Proof.
  intros Hv1 Hv2 Rx1 Rx2 Rt Rh Rer Hw Her He1 Hpos.
  pose proof (in_range_pos _ Rx1) as Hw1.
  pose proof (in_range_pos _ Rt) as Ht.
  pose proof (in_range_pos _ Rh) as Hh.
  destruct (wheeler_weff_no_overflow _ _ _ _ _ He1) as (_ & _ & Ho).
  destruct (width_term_small x1 t Ht ltac:(lra)) as [_ Ho1].
  assert (Hu : x1 / t + 11 / 10 <> 0).
  { assert (0 <= x1 / t) by (apply Rle_mult_inv_pos; lra). lra. }
  rewrite (wheeler_weff_value w1 x1) in He1 by (assumption || lra).
  inversion He1 as [He]. rewrite <- He in Hpos. clear He He1.
  assert (Hinc : weff_formula x1 t er h < weff_formula x2 t er h)
    by (apply weff_formula_increasing; lra).
  exists (z0_formula x1 t er h), (z0_formula x2 t er h).
  split; [apply wheeler_z0_value; (assumption || lra) |].
  split; [apply wheeler_z0_value; (assumption || lra) |].
  unfold z0_formula.
  assert (Hd : 0 < impedance_of_weff (weff_formula x2 t er h) er h <
               impedance_of_weff (weff_formula x1 t er h) er h)
    by (apply impedance_of_weff_decreasing; lra).
  lra.
Qed.

Lemma wheeler_z0_positive_decreasing_witness :
  exists z1 z2,
    wheeler_z0 (PyFloat 1) 1 1 1 = Ok (Fin z1) /\
    wheeler_z0 (PyFloat 2) 1 1 1 = Ok (Fin z2) /\
    0 <= z2 <= z1.
Proof.
  apply (wheeler_z0_positive_decreasing (PyFloat 1) (PyFloat 2) 1 2 1 1 1
           (weff_formula 1 1 1 1));
    try reflexivity; try lra; try (apply in_range_moderate; lra).
  - apply wheeler_weff_value; try reflexivity; try lra.
    + apply unit_no_overflow.
    + apply width_term_small; lra.
  - destruct (weff_unit_bounds 1); lra.
Defined.

(** *** A trace a hundred times thicker than the substrate *)

Lemma weff_thick_trace : weff_formula 1 100 1 1 <= -24.
Proof.
  unfold weff_formula.
  pose proof PI_gt_3 as Hpi. pose proof PI_4 as Hpi4.
  pose proof exp_1_bounds as [He2 He3].
  set (p := 1 / PI * (1 / (1 / 100 + 11 / 10))).
  set (q := (100 / 1) ^ 2 + p ^ 2).
  assert (Hq : 100 * 100 <= q).
  { unfold q. pose proof (pow2_ge_0 p).
    replace ((100 / 1) ^ 2) with (100 * 100) by field. lra. }
  assert (Hs : 100 <= sqrt q) by (apply sqrt_ge_bound; lra).
  set (a := 4 * exp 1 / sqrt q).
  assert (Ha0 : 0 < a) by (unfold a; apply Rdiv_lt_0_compat; lra).
  assert (Ha : a <= exp (-1)).
  { unfold a. apply Rdiv_le_upper; [lra |].
    replace (exp (-1)) with (/ exp 1) by (rewrite <- exp_Ropp; f_equal; lra).
    assert (/ 3 <= / exp 1) by (apply Rinv_le_contravar; lra).
    nra. }
  assert (Hl : ln a <= -1) by (apply ln_le_bound; assumption).
  set (c := 100 * ((1 + 1 / 1) / (2 * PI))).
  assert (Hc : 25 <= c).
  { unfold c. replace (100 * ((1 + 1 / 1) / (2 * PI))) with (100 / PI) by (field; lra).
    apply Rdiv_le_lower; lra. }
  nra.
Qed.

Lemma log_argument_thick e :
  e <= -24 -> 0 < log_argument e 1 1 < 1.
Proof.
  intros He. rewrite log_argument_unit.
  pose proof PI_sqr_bounds as [Hp0 Hp].
  set (x := 4 / e).
  assert (Hx : - (1 / 6) <= x < 0).
  { unfold x. replace (4 / e) with (- (4 / - e)) by (field; lra).
    assert (0 < 4 / - e) by (apply Rdiv_lt_0_compat; lra).
    assert (4 / - e <= 1 / 6) by (apply Rdiv_le_upper; lra).
    lra. }
  assert (Hsq : 0 <= (2 * x) ^ 2 <= 1 / 9).
  { split; [apply pow2_ge_0 |]. nra. }
  assert (Hs : sqrt ((2 * x) ^ 2 + PI ^ 2) <= 4.1) by (apply sqrt_le_bound; lra).
  assert (Hs3 : 3 <= sqrt ((2 * x) ^ 2 + PI ^ 2)) by (apply sqrt_ge_bound; lra).
  split; nra.
Qed.

(** C3, as stated: at [w = 1], [t = 100], [er = 1], [h = 1], all of them
    valid, the effective width is negative and so is the impedance. *)
Lemma wheeler_z0_thick_trace :
  exists z, wheeler_z0 (PyFloat 1) 100 1 1 = Ok (Fin z) /\ z < 0.
Proof.
  pose proof weff_thick_trace as He.
  destruct (log_argument_thick _ He) as [Ha0 Ha1].
  exists (impedance_of_weff (weff_formula 1 100 1 1) 1 1). split.
  - apply wheeler_z0_of_weff; try lra.
    apply (wheeler_weff_value (PyFloat 1)); try reflexivity; try lra.
    + pose proof DBL_MAX_large.
      replace ((100 / 1) ^ 2) with 10000 by field. lra.
    + apply width_term_small; lra.
  - unfold impedance_of_weff.
    pose proof impedance_scale_unit as [HK _].
    assert (ln (log_argument (weff_formula 1 100 1 1) 1 1) < 0).
    { rewrite <- ln_1. apply ln_increasing; lra. }
    nra.
Qed.

(** *** A trace twenty times thicker than the substrate

    For a width up to the substrate height the effective width lies in
    [-8, -1], the argument of the logarithm of line 34 is negative and
    the impedance is [nan]. *)

Lemma sqrt_gt_bound x y : 0 <= y -> y * y < x -> y < sqrt x.
Proof.
  intros Hy Hxy. rewrite <- (sqrt_square y Hy).
  apply sqrt_lt_1; nra.
Qed.

Lemma weff_20_bounds x :
  0 <= x <= 1 -> -8 <= weff_formula x 20 1 1 <= -1.
Proof.
  intros Hx. unfold weff_formula.
  pose proof PI_gt_3 as Hpi. pose proof PI_4 as Hpi4.
  pose proof exp_1_bounds as [He2 He3].
  destruct (width_term_small x 20 ltac:(lra) ltac:(lra)) as [Hp _].
  set (p := 1 / PI * (1 / (x / 20 + 11 / 10))) in *.
  assert (Hp2 : 0 <= p ^ 2 <= 1).
  { split; [apply pow2_ge_0 |]. replace 1 with (1 ^ 2) by lra.
    apply pow_incr; lra. }
  set (q := (20 / 1) ^ 2 + p ^ 2).
  assert (Hq : 400 <= q <= 401).
  { unfold q. replace ((20 / 1) ^ 2) with 400 by field. lra. }
  assert (Hs : 20 <= sqrt q <= 20.03).
  { split; [apply sqrt_ge_bound; lra | apply sqrt_le_bound; lra]. }
  set (a := 4 * exp 1 / sqrt q).
  assert (Ha0 : 0 < a) by (unfold a; apply Rdiv_lt_0_compat; lra).
  assert (Hup : a <= exp (- (0.4))).
  { pose proof (exp_ineq1_le (- (0.4))).
    assert (a <= 0.6) by (unfold a; apply Rdiv_le_upper; lra). lra. }
  assert (Hlo : exp (- (1.2)) <= a).
  { destruct (exp_neg_bounds 0.6 ltac:(lra)) as [_ U].
    assert (U' : exp (- (0.6)) <= 0.625).
    { eapply Rle_trans; [exact U |]. apply Rmult_le_reg_l with (1 + 0.6); [lra |].
      rewrite Rinv_r by lra. lra. }
    pose proof (exp_pos (- (0.6))).
    assert (exp (- (1.2)) <= 0.390625).
    { replace (- (1.2)) with (- (0.6) + - (0.6)) by lra. rewrite exp_plus. nra. }
    assert (0.3994 <= a) by (unfold a; apply Rdiv_le_lower; lra). lra. }
  assert (Hl : - (1.2) <= ln a <= - (0.4)).
  { split; [now apply ln_ge_bound | now apply ln_le_bound]. }
  set (c := 20 * ((1 + 1 / 1) / (2 * PI))).
  assert (Hc : 5 <= c <= 20 / 3).
  { unfold c. replace (20 * ((1 + 1 / 1) / (2 * PI))) with (20 / PI) by (field; lra).
    split; [apply Rdiv_le_lower; lra | apply Rdiv_le_upper; lra]. }
  nra.
Qed.

Lemma log_argument_negative e :
  -8 <= e <= -1 -> log_argument e 1 1 < 0.
Proof.
  intros He. rewrite log_argument_unit.
  pose proof PI_sqr_bounds as [Hp0 _].
  set (y := 4 / - e).
  assert (Hy : 1 / 2 <= y <= 4).
  { unfold y. split; [apply Rdiv_le_lower; lra | apply Rdiv_le_upper; lra]. }
  replace (4 / e) with (- y) by (unfold y; field; lra).
  set (iy := / y).
  assert (Hiy : y * iy = 1) by (unfold iy; apply Rinv_r; lra).
  assert (Hiy0 : 0 < iy) by (unfold iy; apply Rinv_0_lt_compat; lra).
  assert (Hiy2 : iy <= 2) by nra.
  assert (Hc : (2 * y + iy) * (2 * y + iy) < (2 * - y) ^ 2 + PI ^ 2) by nra.
  pose proof (sqrt_gt_bound _ (2 * y + iy) ltac:(lra) Hc) as Hs.
  set (S := sqrt ((2 * - y) ^ 2 + PI ^ 2)) in *.
  nra.
Qed.

Lemma wheeler_z0_thick_nan w x :
  value w = Fin x -> 0 <= x <= 1 -> wheeler_z0 w 20 1 1 = Ok NaN.
Proof.
  intros Hw Hx. pose proof (weff_20_bounds x Hx) as He.
  apply (wheeler_z0_nan_of_weff _ _ _ _ (weff_formula x 20 1 1)); try lra.
  - apply wheeler_weff_value; try assumption; try lra.
    + pose proof DBL_MAX_large.
      replace ((20 / 1) ^ 2) with 400 by field. lra.
    + apply width_term_small; lra.
  - now apply log_argument_negative.
Qed.

(** ** [wheeler_z0_width] *)

Section SolverProofs.

Variables z0 t er h tol : R.

Lemma off_target_true s :
  off_target z0 tol s = true <->
  exists z, zm s = Fin z /\ Rabs (z - z0) > tol.
Proof.
  unfold off_target. rewrite fgt_true. destruct (zm s) as [z |]; simpl.
  - split.
    + intros (x & E & Hx). inversion E; subst. eauto.
    + intros (z' & E & Hz). inversion E; subst. eauto.
  - split; intros (x & E & _); discriminate.
Qed.

Lemma off_target_false s :
  off_target z0 tol s = false <-> on_target z0 tol (zm s).
Proof.
  unfold off_target, on_target. rewrite fgt_false.
  destruct (zm s); simpl; tauto.
Qed.

Lemma bracket_low_spec fuel wl zl wl' zl' :
  wheeler_z0 wl t er h = Ok zl ->
  bracket_low z0 t er h fuel wl zl = Ok (wl', zl') ->
  wheeler_z0 wl' t er h = Ok zl' /\ nan_or (fun z => z >= z0) zl' /\
  (forall x, value wl = Fin x -> 0 <= x ->
     exists x', value wl' = Fin x' /\ 0 <= x' <= x).
Proof.
  revert wl zl. induction fuel as [| n IH]; intros wl zl Hc;
    cbn [bracket_low]; destruct (flt zl z0) eqn:Hg; intros E;
    try discriminate.
  - inversion E; subst. apply flt_false in Hg.
    repeat split; auto. intros x Hx H0. exists x. split; [assumption | lra].
  - bind_inv E. apply IH in E; [| assumption].
    destruct E as (E1 & E2 & E3). repeat split; auto.
    intros x Hx H0. destruct (E3 (x / 10)) as (x' & Hx' & Hb).
    + rewrite value_pymap, Hx. reflexivity.
    + lra.
    + exists x'. split; [assumption | lra].
  - inversion E; subst. apply flt_false in Hg.
    repeat split; auto. intros x Hx H0. exists x. split; [assumption | lra].
Qed.

Lemma bracket_high_spec fuel wh zh wh' zh' :
  wheeler_z0 wh t er h = Ok zh ->
  bracket_high z0 t er h fuel wh zh = Ok (wh', zh') ->
  wheeler_z0 wh' t er h = Ok zh' /\ nan_or (fun z => z <= z0) zh' /\
  (forall x, value wh = Fin x -> 0 <= x ->
     exists x', value wh' = Fin x' /\ x <= x').
Proof.
  revert wh zh. induction fuel as [| n IH]; intros wh zh Hc;
    cbn [bracket_high]; destruct (fgt zh z0) eqn:Hg; intros E;
    try discriminate.
  - inversion E; subst. apply fgt_false in Hg.
    repeat split; auto. intros x Hx H0. exists x. split; [assumption | lra].
  - bind_inv E. apply IH in E; [| assumption].
    destruct E as (E1 & E2 & E3). repeat split; auto.
    intros x Hx H0. destruct (E3 (x * 10)) as (x' & Hx' & Hb).
    + rewrite value_pymap, Hx. reflexivity.
    + lra.
    + exists x'. split; [assumption | lra].
  - inversion E; subst. apply fgt_false in Hg.
    repeat split; auto. intros x Hx H0. exists x. split; [assumption | lra].
Qed.

Lemma bracketing_spec guess fuel s :
  bracketing z0 t er h guess fuel = Ok s ->
  width s = guess /\ consistent t er h s /\ brackets_target z0 s /\
  (forall g, value guess = Fin g -> 0 <= g -> ordered s).
Proof.
  unfold bracketing. intros E.
  bind_inv E. bind_inv E. bind_inv E. bind_inv E. bind_inv E.
  inversion E; subst; clear E.
  destruct a1 as [wl zl]. destruct a3 as [wh zh].
  cbn [fst snd width zm wlow zlow whigh zhigh] in *.
  apply bracket_low_spec in E2; [| assumption].
  apply bracket_high_spec in E4; [| assumption].
  destruct E2 as (L1 & L2 & L3). destruct E4 as (H1 & H2 & H3).
  split; [reflexivity |]. split; [repeat split; assumption |].
  split; [split; assumption |].
  intros g Hg H0. unfold ordered. cbn [width wlow whigh].
  destruct (L3 (g / 10)) as (lo & Hlo & Hl);
    [rewrite value_pymap, Hg; reflexivity | lra |].
  destruct (H3 (g * 10)) as (hi & Hhi & Hh);
    [rewrite value_pymap, Hg; reflexivity | lra |].
  exists lo, hi. rewrite Hg. simpl. repeat split; try assumption; lra.
Qed.

(** *** The linear interpolation of lines 92-102 *)

Lemma interpolate_up zmv wv hi zh m d :
  z0 < zmv -> nan_or (fun z => z <= z0) zh -> wv <= hi ->
  np_div (fsub zh (Fin zmv)) (fsub (Fin hi) (Fin wv)) = Ok m ->
  np_div (fsub (Fin z0) (Fin zmv)) m = Ok d ->
  nan_or (fun x => wv <= x <= hi) (fadd (Fin wv) d).
Proof.
  intros Hz Hh Hw Em Ed. destruct zh as [zhv |]; simpl in Hh.
  2:{ simpl in Em. inversion Em; subst. simpl in Ed. inversion Ed; subst.
      exact I. }
  apply np_div_inv in Em. simpl in Em.
  destruct Em as [[HW ->] | (_ & Hz0 & _)]; [| exfalso; lra].
  apply np_div_inv in Ed. simpl in Ed.
  destruct Ed as [[Hm ->] | (_ & _ & ->)]; [| exact I].
  simpl.
  set (A := zmv - z0). set (B := zmv - zhv). set (W := hi - wv) in *.
  assert (HA : 0 < A) by (unfold A; lra).
  assert (HB : A <= B) by (unfold A, B; lra).
  assert (HWp : 0 < W) by (unfold W in *; lra).
  assert (Hd : (z0 - zmv) / ((zhv - zmv) / W) = A * W / B).
  { replace (z0 - zmv) with (- A) by (unfold A; lra).
    replace (zhv - zmv) with (- B) by (unfold B; lra).
    field. split; lra. }
  rewrite Hd.
  assert (Hd0 : 0 < A * W / B) by (apply Rdiv_lt_0_compat; nra).
  assert (Hd1 : A * W / B <= W) by (apply Rdiv_le_upper; nra).
  unfold W in *. lra.
Qed.

Lemma interpolate_down zmv wv lo zl m d :
  zmv <= z0 -> nan_or (fun z => z >= z0) zl -> lo <= wv ->
  np_div (fsub (Fin zmv) zl) (fsub (Fin wv) (Fin lo)) = Ok m ->
  np_div (fsub (Fin z0) (Fin zmv)) m = Ok d ->
  nan_or (fun x => lo <= x <= wv) (fadd (Fin wv) d).
Proof.
  intros Hz Hl Hw Em Ed. destruct zl as [zlv |]; simpl in Hl.
  2:{ simpl in Em. inversion Em; subst. simpl in Ed. inversion Ed; subst.
      exact I. }
  apply np_div_inv in Em. simpl in Em.
  destruct Em as [[HW ->] | (_ & _ & ->)].
  2:{ rewrite np_div_nan_r in Ed. inversion Ed; subst. exact I. }
  apply np_div_inv in Ed. simpl in Ed.
  destruct Ed as [[Hm ->] | (_ & _ & ->)]; [| exact I].
  simpl.
  set (A := z0 - zmv). set (B := zlv - zmv). set (W := wv - lo) in *.
  assert (HA : 0 <= A) by (unfold A; lra).
  assert (HB : A <= B) by (unfold A, B; lra).
  assert (HWp : 0 < W) by (unfold W in *; lra).
  assert (HBp : 0 < B).
  { destruct (Req_dec_T B 0) as [HB0 | HB0]; [| lra].
    exfalso. apply Hm. replace (zmv - zlv) with (- B) by (unfold B; lra).
    rewrite HB0. unfold Rdiv. lra. }
  assert (Hd : A / ((zmv - zlv) / W) = - (A * W / B)).
  { replace (zmv - zlv) with (- B) by (unfold B; lra).
    field. split; lra. }
  rewrite Hd.
  assert (Hd0 : 0 <= A * W / B) by (apply Rdiv_le_lower; nra).
  assert (Hd1 : A * W / B <= W) by (apply Rdiv_le_upper; nra).
  unfold W in *. lra.
Qed.

(** One turn of the loop keeps the three pairs consistent and the two
    bracket impedances on their sides of the target. *)
Lemma interpolate_step_brackets s s' :
  consistent t er h s -> brackets_target z0 s ->
  interpolate_step z0 t er h s = Ok s' ->
  consistent t er h s' /\ brackets_target z0 s'.
Proof.
  intros (Cm & Cl & Ch) (Bl & Bh). unfold interpolate_step.
  destruct (fgt (zm s) z0) eqn:Hg; intros E;
    bind_inv E; bind_inv E; bind_inv E; inversion E; subst; clear E;
    unfold consistent, brackets_target; cbn [width zm wlow zlow whigh zhigh].
  - apply fgt_true in Hg. destruct Hg as (z & Hzm & Hz).
    rewrite Hzm in *. repeat split; auto. simpl. lra.
  - apply fgt_false in Hg. repeat split; auto.
Qed.

(** With the width between the two ends, one turn of the loop moves the
    ends towards each other and leaves the new width between them. *)
Lemma interpolate_step_spec s s' :
  bracketed z0 t er h s -> iterates z0 t er h tol s s' ->
  bracketed z0 t er h s' /\ narrows s s'.
Proof.
  intros (Hc & Hb & (lo & hi & Hlo & Hhi & Hle & Hwd)) [Hg Hs].
  destruct (interpolate_step_brackets _ _ Hc Hb Hs) as [Hc' Hb'].
  destruct Hc as (Cm & _). destruct Hb as (Bl & Bh).
  apply off_target_true in Hg. destruct Hg as (zmv & Hzm & _).
  rewrite Hzm in Cm.
  destruct (wheeler_z0_number_width _ _ _ _ _ Cm) as (wv & Hwv).
  rewrite Hwv in Hwd. simpl in Hwd.
  unfold interpolate_step in Hs. rewrite Hzm, Hwv, Hlo, Hhi in Hs.
  destruct (fgt (Fin zmv) z0) eqn:Hgt.
  - apply fgt_true in Hgt. destruct Hgt as (x & Ex & Hx).
    inversion Ex; subst x.
    bind_inv Hs. bind_inv Hs. bind_inv Hs. inversion Hs; subst s'; clear Hs.
    pose proof (interpolate_up _ _ _ _ _ _ Hx Bh (proj2 Hwd) E E0) as Hn.
    split; [split; [assumption | split; [assumption |]] |].
    + exists wv, hi. cbn [width wlow whigh value].
      repeat split; try assumption; lra.
    + exists lo, hi, wv, hi. cbn [wlow whigh].
      repeat split; try assumption; lra.
  - apply fgt_false in Hgt. simpl in Hgt.
    bind_inv Hs. bind_inv Hs. bind_inv Hs. inversion Hs; subst s'; clear Hs.
    pose proof (interpolate_down _ _ _ _ _ _ Hgt Bl (proj1 Hwd) E E0) as Hn.
    split; [split; [assumption | split; [assumption |]] |].
    + exists lo, wv. cbn [width wlow whigh value].
      repeat split; try assumption; lra.
    + exists lo, hi, lo, wv. cbn [wlow whigh].
      repeat split; try assumption; lra.
Qed.

Lemma interpolate_step_width s s' :
  interpolate_step z0 t er h s = Ok s' ->
  wheeler_z0 (width s') t er h = Ok (zm s').
Proof.
  unfold interpolate_step. destruct (fgt (zm s) z0); intros E;
    bind_inv E; bind_inv E; bind_inv E; inversion E; subst; simpl; assumption.
Qed.

Lemma interpolate_reaches fuel s s' :
  interpolate z0 t er h tol fuel s = Ok s' ->
  reaches z0 t er h tol s s' /\ on_target z0 tol (zm s').
Proof.
  revert s. induction fuel as [| n IH]; intros s; cbn [interpolate];
    destruct (off_target z0 tol s) eqn:Hc; intros E; try discriminate.
  - inversion E; subst. split; [constructor | now apply off_target_false].
  - bind_inv E. apply IH in E. destruct E as [Hr Ht]. split; [| assumption].
    clear - Hr Hc E0. induction Hr.
    + eapply reaches_step; [constructor | split; eassumption].
    + eapply reaches_step; [apply IHHr; assumption | assumption].
  - inversion E; subst. split; [constructor | now apply off_target_false].
Qed.

Lemma reaches_interpolate s s' :
  reaches z0 t er h tol s s' -> on_target z0 tol (zm s') ->
  exists fuel, interpolate z0 t er h tol fuel s = Ok s'.
Proof.
  intros Hr Ht.
  assert (G : forall k, (exists n, interpolate z0 t er h tol n s' = k) ->
                        exists n, interpolate z0 t er h tol n s = k);
    [| apply G].
  2:{ exists O. cbn [interpolate]. apply off_target_false in Ht.
      rewrite Ht. reflexivity. }
  clear Ht. induction Hr as [| s1 s2 Hr IH [Hc Hs]]; intros k Hk;
    [assumption |].
  apply IH. destruct Hk as [n Hn]. exists (S n). cbn [interpolate].
  rewrite Hc, Hs. cbn [bind]. assumption.
Qed.

Lemma reaches_width s s' :
  wheeler_z0 (width s) t er h = Ok (zm s) ->
  reaches z0 t er h tol s s' ->
  wheeler_z0 (width s') t er h = Ok (zm s').
Proof.
  intros H0 Hr. destruct Hr as [| s1 s2 _ [_ Hs]]; [assumption |].
  eapply interpolate_step_width; eassumption.
Qed.

Lemma reaches_brackets s s' :
  consistent t er h s -> brackets_target z0 s ->
  reaches z0 t er h tol s s' ->
  consistent t er h s' /\ brackets_target z0 s'.
Proof.
  intros Hc Hb Hr. induction Hr as [| s1 s2 Hr [Hc1 Hb1] [_ Hs]];
    [now split |].
  eapply interpolate_step_brackets; eassumption.
Qed.

Lemma narrows_refl s : ordered s -> narrows s s.
Proof.
  intros (lo & hi & Hlo & Hhi & _). exists lo, hi, lo, hi.
  repeat split; try assumption; lra.
Qed.

Lemma narrows_trans s1 s2 s3 : narrows s1 s2 -> narrows s2 s3 -> narrows s1 s3.
Proof.
  intros (lo & hi & lo' & hi' & H1 & H2 & H3 & H4 & H5 & H6)
         (lo2 & hi2 & lo3 & hi3 & K1 & K2 & K3 & K4 & K5 & K6).
  rewrite H3 in K1. rewrite H4 in K2. inversion K1; inversion K2; subst.
  exists lo, hi, lo3, hi3. repeat split; try assumption; lra.
Qed.

Lemma reaches_bracketed s s' :
  bracketed z0 t er h s -> reaches z0 t er h tol s s' ->
  bracketed z0 t er h s' /\ narrows s s'.
Proof.
  intros Hb Hr. induction Hr as [| s1 s2 Hr IH Hi].
  - split; [assumption | apply narrows_refl, Hb].
  - destruct IH as (Hb1 & Hn).
    destruct (interpolate_step_spec _ _ Hb1 Hi) as (Hb2 & Hn2).
    split; [assumption | eapply narrows_trans; eassumption].
Qed.

(** What the solver returns is the width of a state the loop of line 91
    was left in. *)
Lemma wheeler_z0_width_exit guess fuel w :
  wheeler_z0_width z0 t er h tol guess fuel = Ok w ->
  exists s0 s,
    bracketing z0 t er h guess fuel = Ok s0 /\
    reaches z0 t er h tol s0 s /\ w = width s /\
    wheeler_z0 w t er h = Ok (zm s) /\ on_target z0 tol (zm s).
Proof.
  unfold wheeler_z0_width. intros E. bind_inv E. bind_inv E.
  inversion E; subst; clear E.
  destruct (bracketing_spec _ _ _ E0) as (_ & (Cm & _) & _).
  apply interpolate_reaches in E1. destruct E1 as [Hr Ht].
  exists a, a0. repeat split; try assumption.
  eapply reaches_width; eassumption.
Qed.

(** C1, amended.  Whenever [wheeler_z0_width] returns a width,
    [wheeler_z0] returns at that width, and the impedance it returns is
    within [tol] of the target [z0] or is [nan]. *)
Theorem wheeler_z0_width_within_tolerance guess fuel w :
  wheeler_z0_width z0 t er h tol guess fuel = Ok w ->
  exists z, wheeler_z0 w t er h = Ok z /\
            match z with Fin x => Rabs (x - z0) <= tol | NaN => True end.
Proof.
  intros E. apply wheeler_z0_width_exit in E.
  destruct E as (s0 & s & _ & _ & _ & Hz & Ht).
  exists (zm s). split; [assumption |].
  unfold on_target in Ht. destruct (zm s); exact Ht.
Qed.

(** C4, amended.  When the two bracketing loops have ended, the
    impedance at [wlow] is at least [z0] or [nan], and the impedance at
    [whigh] is at most [z0] or [nan]; every turn of the interpolation
    loop keeps this; for a guess that is a number and not negative, a
    turn never lowers [wlow], never raises [whigh] and leaves the new
    width between them unless it is [nan]; and the loop ends in a state
    exactly when that state is reached with [zm] within [tol] of [z0]
    or [nan]. *)
Theorem bracket_invariant guess fuel s0 :
  bracketing z0 t er h guess fuel = Ok s0 ->
  (consistent t er h s0 /\ brackets_target z0 s0) /\
  (forall s s', reaches z0 t er h tol s0 s -> iterates z0 t er h tol s s' ->
     consistent t er h s' /\ brackets_target z0 s') /\
  (forall g, value guess = Fin g -> 0 <= g ->
   forall s s', reaches z0 t er h tol s0 s -> iterates z0 t er h tol s s' ->
     ordered s' /\ narrows s s') /\
  (forall s, (exists n, interpolate z0 t er h tol n s0 = Ok s) <->
             reaches z0 t er h tol s0 s /\ on_target z0 tol (zm s)).
Proof.
  intros E. apply bracketing_spec in E. destruct E as (_ & Hc & Hb & Ho).
  split; [now split |]. split; [| split].
  - intros s s' Hr [_ Hs].
    destruct (reaches_brackets _ _ Hc Hb Hr) as [Hcs Hbs].
    eapply interpolate_step_brackets; eassumption.
  - intros g Hg H0 s s' Hr Hi.
    assert (B0 : bracketed z0 t er h s0).
    { split; [assumption | split; [assumption | now apply (Ho g)]]. }
    destruct (reaches_bracketed _ _ B0 Hr) as (Bs & _).
    destruct (interpolate_step_spec _ _ Bs Hi) as ((_ & _ & Hord) & Hn).
    split; assumption.
  - intros s. split.
    + intros [n Hn]. eapply interpolate_reaches; eassumption.
    + intros [Hr Ht]. now apply reaches_interpolate.
Qed.

Lemma interpolate_on_target s fuel :
  on_target z0 tol (zm s) -> interpolate z0 t er h tol fuel s = Ok s.
Proof.
  intros Ht. apply off_target_false in Ht.
  destruct fuel; cbn [interpolate]; rewrite Ht; reflexivity.
Qed.

Lemma solver_on_target guess fuel s :
  bracketing z0 t er h guess fuel = Ok s ->
  on_target z0 tol (zm s) ->
  wheeler_z0_width z0 t er h tol guess fuel = Ok guess.
Proof.
  intros Hb Ht. unfold wheeler_z0_width. rewrite Hb. cbn [bind].
  rewrite interpolate_on_target by assumption. cbn [bind].
  apply bracketing_spec in Hb. destruct Hb as [Hw _]. now rewrite Hw.
Qed.

(** C9. If the impedance at the guess is already within [tol] of [z0]
    and the bracketing loops end, the solver returns the guess itself,
    and the interpolation loop ends without one execution of its body
    (with no fuel at all). *)
Theorem guess_within_tolerance_returned guess fuel z s :
  wheeler_z0 guess t er h = Ok (Fin z) ->
  Rabs (z - z0) <= tol ->
  bracketing z0 t er h guess fuel = Ok s ->
  wheeler_z0_width z0 t er h tol guess fuel = Ok guess /\
  interpolate z0 t er h tol 0 s = Ok s.
Proof.
  intros Hz Ht Hb.
  destruct (bracketing_spec _ _ _ Hb) as (Hw & (Cm & _) & _).
  rewrite Hw, Hz in Cm. inversion Cm as [Hzm].
  assert (Hon : on_target z0 tol (zm s)) by (rewrite <- Hzm; exact Ht).
  split; [eapply solver_on_target; eassumption |].
  now apply interpolate_on_target.
Qed.

End SolverProofs.

(** *** Runs in which the bracketing loops end at once *)

Lemma bracket_low_exit z0 t er h fuel wl zl :
  flt zl z0 = false -> bracket_low z0 t er h fuel wl zl = Ok (wl, zl).
Proof. intros H. destruct fuel; cbn [bracket_low]; rewrite H; reflexivity. Qed.

Lemma bracket_high_exit z0 t er h fuel wh zh :
  fgt zh z0 = false -> bracket_high z0 t er h fuel wh zh = Ok (wh, zh).
Proof. intros H. destruct fuel; cbn [bracket_high]; rewrite H; reflexivity. Qed.

Lemma bracketing_immediate z0 t er h guess fuel z zl zh :
  wheeler_z0 (PyFloat guess) t er h = Ok z ->
  wheeler_z0 (PyFloat (guess / 10)) t er h = Ok zl -> flt zl z0 = false ->
  wheeler_z0 (PyFloat (guess * 10)) t er h = Ok zh -> fgt zh z0 = false ->
  bracketing z0 t er h (PyFloat guess) fuel =
  Ok (mkState (PyFloat guess) z
              (PyFloat (guess / 10)) zl (PyFloat (guess * 10)) zh).
Proof.
  intros Hz Hl Hlz Hh Hhz. unfold bracketing. cbn [pymap].
  rewrite Hz. cbn [bind]. rewrite Hl. cbn [bind].
  rewrite bracket_low_exit by assumption. cbn [bind fst snd].
  rewrite Hh. cbn [bind]. rewrite bracket_high_exit by assumption. reflexivity.
Qed.

(** Target 45 ohm in the unit geometry, guess 1. *)
Lemma unit_bracketing fuel :
  exists z zl zh,
    bracketing 45 1 1 1 (PyFloat 1) fuel =
    Ok (mkState (PyFloat 1) (Fin z)
                (PyFloat (1 / 10)) (Fin zl) (PyFloat (1 * 10)) (Fin zh)) /\
    47.08 <= z <= 220 /\ 47.08 <= zl /\ zh <= 44.
Proof.
  exists (z0_formula 1 1 1 1), (z0_formula (1 / 10) 1 1 1),
         (z0_formula (1 * 10) 1 1 1).
  pose proof (z0_unit_narrow 1 ltac:(lra) ltac:(lra)).
  pose proof (z0_unit_upper 1 ltac:(lra)).
  pose proof (z0_unit_narrow (1 / 10) ltac:(lra) ltac:(lra)).
  pose proof (z0_unit_wide (1 * 10) ltac:(lra)).
  split; [| lra].
  apply bracketing_immediate;
    try (apply (wheeler_z0_unit (PyFloat _)); [reflexivity | lra]).
  - apply flt_false. simpl. lra.
  - apply fgt_false. simpl. lra.
Qed.

(** Target 50 ohm with a trace twenty times thicker than the substrate,
    guess 0.05: the three impedances of lines 77, 79 and 86 are [nan],
    and the guards of lines 81 and 87 are false. *)
Lemma thick_bracketing fuel :
  bracketing 50 20 1 1 (PyFloat 0.05) fuel =
  Ok (mkState (PyFloat 0.05) NaN
              (PyFloat (0.05 / 10)) NaN (PyFloat (0.05 * 10)) NaN).
Proof.
  apply bracketing_immediate; try reflexivity;
    apply (wheeler_z0_thick_nan (PyFloat _) _ eq_refl); lra.
Qed.

(** *** A run that ends at the guess

    Target 45 ohm in the unit geometry, guess 1, tolerance 175: the
    impedance at the guess lies in [47.08, 220]. *)

Lemma unit_run :
  exists z s,
    wheeler_z0 (PyFloat 1) 1 1 1 = Ok (Fin z) /\ Rabs (z - 45) <= 175 /\
    bracketing 45 1 1 1 (PyFloat 1) 0 = Ok s /\
    wheeler_z0_width 45 1 1 1 175 (PyFloat 1) 0 = Ok (PyFloat 1).
Proof.
  destruct (unit_bracketing 0) as (z & zl & zh & Hb & Hz & _).
  destruct (bracketing_spec _ _ _ _ _ _ _ Hb) as (_ & (Cm & _) & _).
  cbn [width zm] in Cm.
  assert (Ht : Rabs (z - 45) <= 175) by (rewrite Rabs_pos_eq; lra).
  exists z. eexists. split; [exact Cm |]. split; [exact Ht |].
  split; [exact Hb |].
  eapply solver_on_target; [exact Hb | exact Ht].
Qed.

(** *** A run that returns a width whose impedance is [nan] *)

Lemma thick_run tol :
  wheeler_z0_width 50 20 1 1 tol (PyFloat 0.05) 0 = Ok (PyFloat 0.05).
Proof.
  eapply solver_on_target; [apply thick_bracketing | exact I].
Qed.

(** C1, as stated: for the target 50 ohm, [t = 20], [er = h = 1], the
    tolerance 0.01 and the guess 0.05 the solver returns the guess, and
    the impedance at the guess is [nan], within no tolerance of 50. *)
Lemma wheeler_z0_width_returns_nan_impedance :
  wheeler_z0_width 50 20 1 1 0.01 (PyFloat 0.05) 0 = Ok (PyFloat 0.05) /\
  wheeler_z0 (PyFloat 0.05) 20 1 1 = Ok NaN /\
  ~ exists z, wheeler_z0 (PyFloat 0.05) 20 1 1 = Ok (Fin z) /\
              Rabs (z - 50) <= 0.01.
Proof.
  assert (E : wheeler_z0 (PyFloat 0.05) 20 1 1 = Ok NaN)
    by (apply (wheeler_z0_thick_nan (PyFloat _) _ eq_refl); lra).
  split; [apply thick_run |]. split; [exact E |].
  intros (z & Hz & _). rewrite E in Hz. discriminate.
Qed.

Lemma wheeler_z0_width_within_tolerance_witness :
  wheeler_z0_width 45 1 1 1 175 (PyFloat 1) 0 = Ok (PyFloat 1) /\
  exists z, wheeler_z0 (PyFloat 1) 1 1 1 = Ok z /\
            match z with Fin x => Rabs (x - 45) <= 175 | NaN => True end.
Proof.
  destruct unit_run as (z & s & _ & _ & _ & Hrun).
  split; [exact Hrun |].
  exact (wheeler_z0_width_within_tolerance 45 1 1 1 175 (PyFloat 1) 0
           (PyFloat 1) Hrun).
Defined.

(** C4, as stated: for the target 50 ohm, [t = 20], [er = h = 1] and
    the guess 0.05 the bracketing loops end with an impedance at [wlow]
    and at [whigh] that is [nan], neither at least nor at most 50, and
    the loop of line 91 is left at once with [zm = nan]. *)
Lemma bracketing_nan_bracket :
  exists s,
    bracketing 50 20 1 1 (PyFloat 0.05) 0 = Ok s /\
    wheeler_z0 (wlow s) 20 1 1 = Ok NaN /\
    wheeler_z0 (whigh s) 20 1 1 = Ok NaN /\
    interpolate 50 20 1 1 0.01 0 s = Ok s /\ zm s = NaN.
Proof.
  eexists. split; [apply thick_bracketing |]. cbn [wlow whigh zm].
  repeat split;
    try (apply (wheeler_z0_thick_nan (PyFloat _) _ eq_refl); lra).
Qed.

Lemma bracket_invariant_witness :
  exists s0,
    bracketing 45 1 1 1 (PyFloat 1) 0 = Ok s0 /\
    consistent 1 1 1 s0 /\ brackets_target 45 s0.
Proof.
  destruct unit_run as (z & s & _ & _ & Hb & _).
  exists s. split; [exact Hb |].
  exact (proj1 (bracket_invariant 45 1 1 1 175 (PyFloat 1) 0 s Hb)).
Defined.

Lemma guess_within_tolerance_returned_witness :
  wheeler_z0_width 45 1 1 1 175 (PyFloat 1) 0 = Ok (PyFloat 1).
Proof.
  destruct unit_run as (z & s & Hz & Ht & Hb & _).
  exact (proj1 (guess_within_tolerance_returned 45 1 1 1 175 (PyFloat 1) 0
                  z s Hz Ht Hb)).
Defined.

(** * Further properties *)

(** ** Traces no thicker than the substrate *)

Lemma weff_formula_thin w t er h :
  0 <= w -> 0 < t -> t <= h -> 0 < er -> w <= weff_formula w t er h.
Proof.
  intros Hw Ht Hth Her. unfold weff_formula.
  pose proof PI_gt_3 as Hpi. pose proof exp_1_bounds as [He2 He3].
  set (p := 1 / PI * (1 / (w / t + 11 / 10))).
  assert (Hwt : 0 <= w / t) by (apply Rle_mult_inv_pos; assumption).
  assert (Hp : 0 <= p <= 1).
  { unfold p.
    assert (Hi : 0 < 1 / PI <= 1).
    { split; [apply Rdiv_lt_0_compat; lra | apply Rdiv_le_upper; lra]. }
    assert (Hu : 0 < 1 / (w / t + 11 / 10) <= 1).
    { split; [apply Rdiv_lt_0_compat; lra | apply Rdiv_le_upper; lra]. }
    nra. }
  assert (Hp2 : 0 <= p ^ 2 <= 1).
  { split; [apply pow2_ge_0 |]. replace 1 with (1 ^ 2) by lra.
    apply pow_incr; lra. }
  assert (Hr : 0 < t / h <= 1).
  { split; [apply Rdiv_lt_0_compat; lra | apply Rdiv_le_upper; lra]. }
  assert (Hr2 : 0 < (t / h) ^ 2 <= 1).
  { split; [apply pow2_pos; lra |]. replace 1 with (1 ^ 2) by lra.
    apply pow_incr; lra. }
  set (q := (t / h) ^ 2 + p ^ 2).
  assert (Hq : 0 < q <= 2) by (unfold q; lra).
  assert (Hs : 0 < sqrt q <= 2).
  { split; [apply sqrt_lt_R0; lra | apply sqrt_le_bound; lra]. }
  assert (Ha : 1 <= 4 * exp 1 / sqrt q) by (apply Rdiv_le_lower; lra).
  assert (Hl : 0 <= ln (4 * exp 1 / sqrt q)).
  { apply ln_ge_bound. rewrite exp_0. assumption. }
  assert (Hc : 0 < t * ((1 + 1 / er) / (2 * PI))).
  { assert (0 < 1 / er) by (apply Rdiv_lt_0_compat; lra).
    apply Rmult_lt_0_compat; [assumption |].
    apply Rdiv_lt_0_compat; lra. }
  nra.
Qed.

(** X3. When the trace is no thicker than the substrate ([t <= h]),
    for positive [t], [h], [er] and widths [w1 < w2] far from the ends
    of the range of doubles, [wheeler_z0] returns a number at both
    widths, and the impedance at [w2] is not negative and not above the
    impedance at [w1]. *)
Theorem wheeler_z0_thin_trace (w1 w2 : pynum) x1 x2 t er h :
  value w1 = Fin x1 -> value w2 = Fin x2 ->
  in_range x1 -> in_range x2 -> in_range t -> in_range h -> in_range er ->
  x1 < x2 -> t <= h ->
  exists z1 z2,
    wheeler_z0 w1 t er h = Ok (Fin z1) /\
    wheeler_z0 w2 t er h = Ok (Fin z2) /\
    0 <= z2 <= z1.
Proof.
  intros Hv1 Hv2 Rx1 Rx2 Rt Rh Rer Hw Hth.
  pose proof (in_range_pos _ Rx1) as Hw1.
  pose proof (in_range_pos _ Rt) as Ht.
  pose proof (in_range_pos _ Rer) as Her.
  pose proof (weff_formula_thin x1 t er h ltac:(lra) Ht Hth Her) as H1.
  pose proof (weff_formula_thin x2 t er h ltac:(lra) Ht Hth Her) as H2.
  assert (Ho : (t / h) ^ 2 <= DBL_MAX).
  { assert (0 < t / h <= 1).
    { split; [apply Rdiv_lt_0_compat; lra | apply Rdiv_le_upper; lra]. }
    assert ((t / h) ^ 2 <= 1) by nra.
    pose proof DBL_MAX_large. lra. }
  assert (Hinc : weff_formula x1 t er h < weff_formula x2 t er h)
    by (apply weff_formula_increasing; lra).
  exists (z0_formula x1 t er h), (z0_formula x2 t er h).
  split; [apply wheeler_z0_value; (assumption || lra) |].
  split; [apply wheeler_z0_value; (assumption || lra) |].
  unfold z0_formula.
  assert (Hd : 0 < impedance_of_weff (weff_formula x2 t er h) er h <
               impedance_of_weff (weff_formula x1 t er h) er h)
    by (apply impedance_of_weff_decreasing; lra).
  lra.
Qed.

Lemma wheeler_z0_thin_trace_witness :
  exists z1 z2,
    wheeler_z0 (PyFloat 0.003) 0.000035 4.4 0.0016 = Ok (Fin z1) /\
    wheeler_z0 (NpFloat64 (Fin 0.004)) 0.000035 4.4 0.0016 = Ok (Fin z2) /\
    0 <= z2 <= z1.
Proof.
  apply (wheeler_z0_thin_trace (PyFloat 0.003) (NpFloat64 (Fin 0.004))
           0.003 0.004);
    try reflexivity; try lra; apply in_range_moderate; lra.
Defined.

(** ** Exceptions of [wheeler_z0] *)

Lemma width_term_raise w t e :
  width_term w t = Raise e ->
  (e = ZeroDivisionError \/ e = OverflowError) /\ exists x, w = PyFloat x.
Proof.
  destruct w as [x | a]; cbn [width_term]; intros E.
  - split; [| eauto].
    apply bind_raise in E. destruct E as [E | (q & _ & E)];
      [apply py_div_raise in E; tauto |].
    apply bind_raise in E. destruct E as [E | (r & _ & E)];
      [apply py_div_raise in E; tauto |].
    apply bind_raise in E. destruct E as [E | (p & _ & E)];
      [apply py_square_raise in E; tauto | discriminate].
  - exfalso. apply bind_raise in E. destruct E as [E | (q & _ & E)];
      [now apply np_div_no_raise in E |].
    apply bind_raise in E. destruct E as [E | (r & _ & E)];
      [now apply np_div_no_raise in E | discriminate].
Qed.

Lemma wheeler_weff_raise w t er h e :
  wheeler_weff w t er h = Raise e ->
  (e = ZeroDivisionError \/ e = OverflowError) /\
  (er = 0 \/ h = 0 \/ DBL_MAX < (t / h) ^ 2 \/ exists x, w = PyFloat x).
Proof.
  unfold wheeler_weff. intros E.
  apply bind_raise in E. destruct E as [E | (q1 & _ & E)];
    [apply py_div_raise in E; tauto |].
  apply bind_raise in E. destruct E as [E | (q2 & E2 & E)];
    [apply py_div_raise in E; tauto |].
  apply py_div_inv in E2. destruct E2 as [_ ->].
  apply bind_raise in E. destruct E as [E | (q3 & _ & E)];
    [apply py_square_raise in E; tauto |].
  apply bind_raise in E. destruct E as [E | (q4 & _ & E)];
    [apply width_term_raise in E; tauto |].
  apply bind_raise in E. destruct E as [E | (q5 & _ & E)];
    [now apply np_div_no_raise in E |].
  apply bind_raise in E. destruct E as [E | (q6 & _ & E)];
    [now apply np_log_no_raise in E | discriminate].
Qed.

Lemma wheeler_z0_raise w t er h e :
  wheeler_z0 w t er h = Raise e ->
  (e = ZeroDivisionError \/ e = OverflowError) /\
  (er = 0 \/ h = 0 \/ DBL_MAX < (t / h) ^ 2 \/ exists x, w = PyFloat x).
Proof.
  unfold wheeler_z0. intros E.
  apply bind_raise in E. destruct E as [E | (q1 & _ & E)];
    [now apply wheeler_weff_raise in E |].
  apply bind_raise in E. destruct E as [E | (q2 & _ & E)];
    [now apply np_div_no_raise in E |].
  apply bind_raise in E. destruct E as [E | (q3 & _ & E)];
    [apply py_div_raise in E; tauto |].
  apply bind_raise in E. destruct E as [E | (q4 & _ & E)];
    [now apply np_div_no_raise in E |].
  apply bind_raise in E. destruct E as [E | (q5 & _ & E)];
    [apply py_div_raise in E; tauto |].
  apply bind_raise in E. destruct E as [E | (q6 & _ & E)];
    [now apply np_log_no_raise in E | discriminate].
Qed.

Lemma wheeler_z0_zero_parameter w t er h :
  er = 0 \/ h = 0 -> wheeler_z0 w t er h = Raise ZeroDivisionError.
Proof.
  intros Hz. unfold wheeler_z0, wheeler_weff.
  destruct (Req_dec_T er 0) as [-> | Her].
  - rewrite py_div_zero. reflexivity.
  - destruct Hz as [Hz | ->]; [contradiction |].
    rewrite py_div_ok by assumption. cbn [bind].
    rewrite py_div_zero. reflexivity.
Qed.

Lemma wheeler_z0_zero_thickness x er h :
  wheeler_z0 (PyFloat x) 0 er h = Raise ZeroDivisionError.
Proof.
  destruct (Req_dec_T er 0) as [Her | Her];
    [apply wheeler_z0_zero_parameter; tauto |].
  destruct (Req_dec_T h 0) as [Hh | Hh];
    [apply wheeler_z0_zero_parameter; tauto |].
  unfold wheeler_z0, wheeler_weff.
  rewrite !py_div_ok by assumption. cbn [bind].
  rewrite py_square_ok.
  2:{ replace ((0 / h) ^ 2) with 0 by (field; assumption).
      pose proof DBL_MAX_large. lra. }
  cbn [bind width_term]. rewrite py_div_zero. reflexivity.
Qed.

Lemma wheeler_z0_square_overflow w t er h :
  er <> 0 -> h <> 0 -> Rabs (t / h) <= DBL_MAX -> DBL_MAX < (t / h) ^ 2 ->
  wheeler_z0 w t er h = Raise OverflowError.
Proof.
  intros Her Hh Hq Ho. unfold wheeler_z0, wheeler_weff.
  rewrite !py_div_ok by assumption. cbn [bind]. unfold py_square.
  destruct (Rlt_dec DBL_MAX (Rabs (t / h))); [lra |].
  destruct (Rlt_dec DBL_MAX ((t / h) ^ 2)); [reflexivity | lra].
Qed.

(** X1. [wheeler_z0] raises nothing but [ZeroDivisionError] and
    [OverflowError], and with a float64 width only for a zero [er], a
    zero [h] or a square [(t / h) ** 2] beyond the largest double.  A
    zero [er] or [h] raises [ZeroDivisionError], and so does a zero [t]
    with a width that is a Python float; a quotient [t / h] that is a
    double with a square beyond the largest double raises
    [OverflowError]. *)
Theorem wheeler_z0_exceptions w t er h :
  (forall e, wheeler_z0 w t er h = Raise e ->
     (e = ZeroDivisionError \/ e = OverflowError) /\
     (er = 0 \/ h = 0 \/ DBL_MAX < (t / h) ^ 2 \/ exists x, w = PyFloat x)) /\
  (er = 0 \/ h = 0 -> wheeler_z0 w t er h = Raise ZeroDivisionError) /\
  (er <> 0 -> h <> 0 -> Rabs (t / h) <= DBL_MAX -> DBL_MAX < (t / h) ^ 2 ->
     wheeler_z0 w t er h = Raise OverflowError) /\
  (forall x, w = PyFloat x -> t = 0 ->
     wheeler_z0 w t er h = Raise ZeroDivisionError).
Proof.
  split; [| split; [| split]].
  - intros e. apply wheeler_z0_raise.
  - apply wheeler_z0_zero_parameter.
  - apply wheeler_z0_square_overflow.
  - intros x -> ->. apply wheeler_z0_zero_thickness.
Qed.

Lemma wheeler_z0_exceptions_witness :
  wheeler_z0 (PyFloat 1) (2 ^ 600) 1 1 = Raise OverflowError.
Proof.
  assert (H600 : 0 < 2 ^ 600) by (apply pow_lt; lra).
  assert (Hq : 2 ^ 600 / 1 = 2 ^ 600) by (field; lra).
  assert (Hm : 2 ^ 1023 <= DBL_MAX < 2 ^ 1024).
  { unfold DBL_MAX. assert (0 < 2 ^ 1023) by (apply pow_lt; lra).
    assert (H52 : 0 < / 2 ^ 52 <= 1).
    { split; [apply Rinv_0_lt_compat, pow_lt; lra |].
      rewrite <- Rinv_1. apply Rinv_le_contravar; [lra |].
      apply pow_R1_Rle; lra. }
    replace (2 ^ 1024) with (2 * 2 ^ 1023) by (change 1024%nat with (S 1023); reflexivity).
    split; nra. }
  apply (proj1 (proj2 (proj2 (wheeler_z0_exceptions (PyFloat 1) (2 ^ 600) 1 1))));
    try lra.
  rewrite Hq, Rabs_pos_eq by lra.
  assert (2 ^ 600 <= 2 ^ 1023) by (apply Rle_pow; [lra | lia]). lra.
Defined.

(** With a float64 width only lines 21, 26, 33 and 44 can raise, and
    they do not depend on the width. *)
Lemma numpy_width_no_raise a t er h e :
  er <> 0 -> h <> 0 -> (t / h) ^ 2 <= DBL_MAX ->
  wheeler_z0 (NpFloat64 a) t er h <> Raise e.
Proof.
  intros Her Hh Ho E. apply wheeler_z0_raise in E.
  destruct E as [_ [H0 | [H0 | [H0 | [x H0]]]]];
    try contradiction; try lra; discriminate.
Qed.

(** ** More on [wheeler_z0_width] *)

Section SolverEdges.

Variables z0 t er h tol : R.

(** X5. With a negative tolerance the guard of line 91 is false only
    for an impedance that is [nan]: a width the solver returns has the
    impedance [nan]. *)
Theorem wheeler_z0_width_negative_tol guess fuel w :
  tol < 0 ->
  wheeler_z0_width z0 t er h tol guess fuel = Ok w ->
  wheeler_z0 w t er h = Ok NaN.
Proof.
  intros Ht E. apply wheeler_z0_width_exit in E.
  destruct E as (s0 & s & _ & _ & _ & Hz & Hon).
  rewrite Hz. unfold on_target in Hon.
  destruct (zm s) as [z |]; [| reflexivity].
  simpl in Hon. pose proof (Rabs_pos (z - z0)). lra.
Qed.

(** X15. When the impedance at the guess is [nan] and the bracketing
    loops end, the solver returns the guess, whatever the target and the
    tolerance. *)
Theorem wheeler_z0_width_nan_guess guess fuel s :
  wheeler_z0 guess t er h = Ok NaN ->
  bracketing z0 t er h guess fuel = Ok s ->
  wheeler_z0_width z0 t er h tol guess fuel = Ok guess /\
  interpolate z0 t er h tol 0 s = Ok s.
Proof.
  intros Hz Hb.
  destruct (bracketing_spec _ _ _ _ _ _ _ Hb) as (Hw & (Cm & _) & _).
  rewrite Hw, Hz in Cm. inversion Cm as [Hzm].
  assert (Hon : on_target z0 tol (zm s)) by (rewrite <- Hzm; exact I).
  split; [eapply solver_on_target; eassumption |].
  now apply interpolate_on_target.
Qed.

Lemma bracket_low_raise fuel wl zl e :
  bracket_low z0 t er h fuel wl zl = Raise e ->
  e = ZeroDivisionError \/ e = OverflowError.
Proof.
  revert wl zl. induction fuel as [| n IH]; intros wl zl;
    cbn [bracket_low]; destruct (flt zl z0); intros E; try discriminate.
  apply bind_raise in E. destruct E as [E | (zl' & _ & E)].
  - now apply wheeler_z0_raise in E.
  - now apply IH in E.
Qed.

Lemma bracket_high_raise fuel wh zh e :
  bracket_high z0 t er h fuel wh zh = Raise e ->
  e = ZeroDivisionError \/ e = OverflowError.
Proof.
  revert wh zh. induction fuel as [| n IH]; intros wh zh;
    cbn [bracket_high]; destruct (fgt zh z0); intros E; try discriminate.
  apply bind_raise in E. destruct E as [E | (zh' & _ & E)].
  - now apply wheeler_z0_raise in E.
  - now apply IH in E.
Qed.

Lemma bracketing_raise guess fuel e :
  bracketing z0 t er h guess fuel = Raise e ->
  e = ZeroDivisionError \/ e = OverflowError.
Proof.
  unfold bracketing. intros E.
  apply bind_raise in E. destruct E as [E | (z & _ & E)];
    [now apply wheeler_z0_raise in E |].
  apply bind_raise in E. destruct E as [E | (zl & _ & E)];
    [now apply wheeler_z0_raise in E |].
  apply bind_raise in E. destruct E as [E | (low & _ & E)];
    [now apply bracket_low_raise in E |].
  apply bind_raise in E. destruct E as [E | (zh & _ & E)];
    [now apply wheeler_z0_raise in E |].
  apply bind_raise in E. destruct E as [E | (high & _ & E)];
    [now apply bracket_high_raise in E | discriminate].
Qed.

Lemma interpolate_step_no_raise s e :
  er <> 0 -> h <> 0 -> (t / h) ^ 2 <= DBL_MAX ->
  interpolate_step z0 t er h s <> Raise e.
Proof.
  intros Her Hh Ho. unfold interpolate_step.
  destruct (fgt (zm s) z0); intros E;
    (apply bind_raise in E; destruct E as [E | (m & _ & E)];
       [now apply np_div_no_raise in E |]);
    (apply bind_raise in E; destruct E as [E | (d & _ & E)];
       [now apply np_div_no_raise in E |]);
    (apply bind_raise in E; destruct E as [E | (z & _ & E)];
       [now apply numpy_width_no_raise in E | discriminate]).
Qed.

Lemma interpolate_no_raise fuel s e :
  er <> 0 -> h <> 0 -> (t / h) ^ 2 <= DBL_MAX ->
  interpolate z0 t er h tol fuel s <> Raise e.
Proof.
  intros Her Hh Ho. revert s. induction fuel as [| n IH]; intros s;
    cbn [interpolate]; destruct (off_target z0 tol s); try discriminate.
  intros E. apply bind_raise in E. destruct E as [E | (s' & _ & E)].
  - now apply interpolate_step_no_raise in E.
  - now apply IH in E.
Qed.

Lemma bracketing_ok_parameters guess fuel s :
  bracketing z0 t er h guess fuel = Ok s ->
  er <> 0 /\ h <> 0 /\ (t / h) ^ 2 <= DBL_MAX.
Proof.
  intros E. apply bracketing_spec in E. destruct E as (_ & (Cm & _) & _).
  unfold wheeler_z0 in Cm. bind_inv Cm.
  eapply wheeler_weff_no_overflow; eassumption.
Qed.

(** X6. The solver raises nothing but [ZeroDivisionError] and
    [OverflowError], and only from lines 76-89: once the bracketing
    loops have ended, the interpolation loop never raises.  A zero [er]
    or [h], and a zero [t] with a guess that is a Python float, raise
    [ZeroDivisionError] at the first call of line 77. *)
Theorem wheeler_z0_width_exceptions guess fuel :
  (forall e, wheeler_z0_width z0 t er h tol guess fuel = Raise e ->
     (e = ZeroDivisionError \/ e = OverflowError) /\
     bracketing z0 t er h guess fuel = Raise e) /\
  (forall s n e, bracketing z0 t er h guess fuel = Ok s ->
     interpolate z0 t er h tol n s <> Raise e) /\
  (er = 0 \/ h = 0 \/ (t = 0 /\ exists g, guess = PyFloat g) ->
     wheeler_z0_width z0 t er h tol guess fuel = Raise ZeroDivisionError).
Proof.
  split; [| split].
  - intros e E. unfold wheeler_z0_width in E.
    apply bind_raise in E. destruct E as [E | (s & Hs & E)].
    + split; [now apply bracketing_raise in E | assumption].
    + exfalso. destruct (bracketing_ok_parameters _ _ _ Hs) as (Her & Hh & Ho).
      apply bind_raise in E. destruct E as [E | (s' & _ & E)];
        [now apply interpolate_no_raise in E | discriminate].
  - intros s n e Hs.
    destruct (bracketing_ok_parameters _ _ _ Hs) as (Her & Hh & Ho).
    now apply interpolate_no_raise.
  - intros Hz. unfold wheeler_z0_width, bracketing.
    destruct Hz as [Hz | [Hz | (-> & g & ->)]].
    + rewrite wheeler_z0_zero_parameter by tauto. reflexivity.
    + rewrite wheeler_z0_zero_parameter by tauto. reflexivity.
    + rewrite wheeler_z0_zero_thickness. reflexivity.
Qed.

End SolverEdges.

Lemma wheeler_z0_width_negative_tol_witness :
  wheeler_z0 (PyFloat 0.05) 20 1 1 = Ok NaN.
Proof.
  apply (wheeler_z0_width_negative_tol 50 20 1 1 (-0.01) (PyFloat 0.05) 0);
    [lra | apply thick_run].
Defined.

Lemma wheeler_z0_width_nan_guess_witness :
  wheeler_z0_width 50 20 1 1 0.01 (PyFloat 0.05) 0 = Ok (PyFloat 0.05).
Proof.
  refine (proj1 (wheeler_z0_width_nan_guess 50 20 1 1 0.01 (PyFloat 0.05) 0 _
                   _ (thick_bracketing 0))).
  apply (wheeler_z0_thick_nan (PyFloat _) _ eq_refl). lra.
Defined.

Lemma wheeler_z0_width_exceptions_witness :
  wheeler_z0_width 50 0 4.4 0.0016 0.01 (PyFloat 0.3) 5 =
  Raise ZeroDivisionError.
Proof.
  apply (proj2 (proj2 (wheeler_z0_width_exceptions 50 0 4.4 0.0016 0.01
                         (PyFloat 0.3) 5))).
  right; right. split; [reflexivity | exists 0.3; reflexivity].
Defined.

(** ** More on [miter] *)

(** X9. Over one substrate height the miter length never grows with
    the ratio: from ratio 0.25 on, the value for the wider of two traces
    is not larger, it is never below 0.52 and never above 0.984. *)
Theorem miter_decreasing tw1 tw2 sh a1 a2 b :
  value tw1 = Fin a1 -> value tw2 = Fin a2 -> value sh = Fin b ->
  b <> 0 -> 0.25 <= a1 / b -> a1 / b < a2 / b ->
  exists v1 v2,
    miter tw1 sh = Ok (Fin v1) /\ miter tw2 sh = Ok (Fin v2) /\
    0.52 <= v2 <= v1 /\ v1 <= 0.984.
Proof.
  intros Ha1 Ha2 Hb Hnz Hr Hlt.
  do 2 eexists.
  split; [apply (miter_valid _ _ a1 b); (assumption || lra) |].
  split; [apply (miter_valid _ _ a2 b); (assumption || lra) |].
  replace (- (27 / 20) * a1 / b) with (- (1.35 * (a1 / b))) by lra.
  replace (- (27 / 20) * a2 / b) with (- (1.35 * (a2 / b))) by lra.
  set (r1 := a1 / b) in *. set (r2 := a2 / b) in *.
  assert (Hd : exp (- (1.35 * r2)) < exp (- (1.35 * r1)))
    by (apply exp_increasing; lra).
  assert (Hu : exp (- (1.35 * r1)) <= exp (- (1.35 / 4))).
  { destruct (Req_dec_T r1 0.25) as [-> | Hne].
    - right. f_equal. lra.
    - left. apply exp_increasing. lra. }
  pose proof (exp_pos (- (1.35 * r2))).
  destruct exp_m135_bounds as [[L4 U4] _].
  lra.
Qed.

Lemma miter_decreasing_witness :
  exists v1 v2,
    miter (PyFloat 1) (PyFloat 1) = Ok (Fin v1) /\
    miter (NpFloat64 (Fin 2)) (PyFloat 1) = Ok (Fin v2) /\
    0.52 <= v2 <= v1 /\ v1 <= 0.984.
Proof.
  apply (miter_decreasing (PyFloat 1) (NpFloat64 (Fin 2)) (PyFloat 1) 1 2 1);
    (reflexivity || lra).
Defined.

(** ** More on [coax_core_diameter] *)



(** X12. For a positive outer diameter, a permittivity and an impedance
    that are not negative, the core diameter is not negative, not larger
    than the outer diameter, and not larger for the larger of two
    impedances. *)
Theorem coax_core_diameter_decreasing od x p z1 z2 :
  value od = Fin x -> 0 < x -> 0 <= p -> 0 <= z1 -> z1 <= z2 ->
  exists d1 d2,
    coax_core_diameter od p z1 = Ok (Fin d1) /\
    coax_core_diameter od p z2 = Ok (Fin d2) /\
    0 <= d2 <= d1 /\ d1 <= x.
Proof.
  intros Hx Hod Hp Hz1 Hz.
  do 2 eexists. split; [apply (coax_valid od x); assumption |].
  split; [apply (coax_valid od x); assumption |].
  pose proof (sqrt_pos p) as Hs.
  assert (Hl : 0 < ln 10) by (rewrite <- ln_1; apply ln_increasing; lra).
  assert (Hpow : forall a b, a <= b -> Rpower 10 a <= Rpower 10 b).
  { intros a b [Hab | ->]; [left | right; reflexivity].
    unfold Rpower. apply exp_increasing. nra. }
  assert (H0 : Rpower 10 0 = 1) by (apply Rpower_O; lra).
  assert (Hx1 : 0 <= z1 * sqrt p / 138) by nra.
  assert (Hx12 : z1 * sqrt p / 138 <= z2 * sqrt p / 138) by nra.
  pose proof (Hpow _ _ Hx1) as P1. rewrite H0 in P1.
  pose proof (Hpow _ _ Hx12) as P2.
  set (u1 := Rpower 10 (z1 * sqrt p / 138)) in *.
  set (u2 := Rpower 10 (z2 * sqrt p / 138)) in *.
  assert (Hd2 : 0 <= x / u2) by (apply Rdiv_le_lower; lra).
  assert (Hd12 : x / u2 <= x / u1).
  { apply Rdiv_le_upper; [lra |].
    unfold Rdiv. rewrite Rmult_assoc.
    assert (1 <= / u1 * u2).
    { apply Rmult_le_reg_l with u1; [lra |].
      rewrite <- Rmult_assoc, Rinv_r, Rmult_1_l by lra. lra. }
    nra. }
  assert (Hd1 : x / u1 <= x) by (apply Rdiv_le_upper; nra).
  lra.
Qed.

Lemma coax_core_diameter_decreasing_witness :
  exists d1 d2,
    coax_core_diameter (PyFloat 0.01) 2.1 50 = Ok (Fin d1) /\
    coax_core_diameter (PyFloat 0.01) 2.1 75 = Ok (Fin d2) /\
    0 <= d2 <= d1 /\ d1 <= 0.01.
Proof.
  apply (coax_core_diameter_decreasing (PyFloat 0.01) 0.01 2.1 50 75);
    (reflexivity || lra).
Defined.
